(** * The Zipper core: frame parsing, registry, workflow routing, sessions

    A shallow embedding of [internal/core/stream_parser.go] and of the server
    file of package [core] (the [Server] struct with [handleSession],
    [handleHandShakeFrame], [handleDataFrame], [AddWorkflow] and the
    per-connection goroutine of [ListenAndServe]), followed by the properties
    the specification states about them.

    Conventions:
    - a Go [byte] is a [Z] in [0, 256); a [[]byte] is a [list Z];
    - Go's [int] and [int64] are [Z] with the two's-complement wrap-around of
      a 64-bit word written out ([GoInt.wrap]);
    - a Go [map] is a [gmap]; reading a missing key yields the zero value;
    - a call that can return [(v, err)] or panic returns an [outcome];
    - writes to streams and closes are recorded as a list of [event]s. *)

From Stdlib Require Import ZArith List Lia.
From stdpp Require Import base gmap strings list fin_maps.

Local Open Scope Z_scope.

(** ** Go integers *)

Module GoInt.

Definition bits : Z := 64.
Definition min_int : Z := - 2 ^ (bits - 1).
Definition max_int : Z := 2 ^ (bits - 1) - 1.

(** Two's-complement reduction of a mathematical integer to a 64-bit word. *)
Definition wrap (z : Z) : Z := (z - min_int) mod 2 ^ bits + min_int.

(** [i + 1] and [c++] on a Go integer. *)
Definition succ (z : Z) : Z := wrap (z + 1).

Definition in_range (z : Z) : Prop := min_int <= z <= max_int.

End GoInt.

(** ** Errors, results and panics *)

(** Go [error] values as far as the server tells them apart: the sentinel
    [net.ErrClosed], an error made from a message, an error wrapping another
    one ([%w]), and the error [ParseFrame] builds for an unknown first byte. *)
Inductive error : Type :=
  | net_ErrClosed
  | errors_New (msg : string)
  | errors_Wrap (msg : string) (inner : error)
  | UnknownFrameType (b : Z).

(** [errors.Is(err, net.ErrClosed)]: walks the chain of wrapped errors. *)
Fixpoint errors_Is_ErrClosed (err : error) : bool :=
  match err with
  | net_ErrClosed => true
  | errors_Wrap _ inner => errors_Is_ErrClosed inner
  | errors_New _ | UnknownFrameType _ => false
  end.

(** A Go [(v, err)] return. *)
Inductive result (A : Type) : Type :=
  | Ok (a : A)
  | Err (e : error).
Arguments Ok {A} a.
Arguments Err {A} e.

(** What a panic carries: the error handed to [panic(err)], the run-time
    error of indexing an empty slice, or that of a failed type assertion. *)
Inductive panic_value : Type :=
  | PanicError (e : error)
  | IndexOutOfRange
  | TypeAssertion.

(** A call either returns a value, returns an error, or panics. Nothing in
    the server recovers from a panic, so a panic ends the process. *)
Inductive outcome (A : Type) : Type :=
  | Return (a : A)
  | Fail (e : error)
  | Panic (p : panic_value).
Arguments Return {A} a.
Arguments Fail {A} e.
Arguments Panic {A} p.

Definition of_result {A} (r : result A) : outcome A :=
  match r with
  | Ok a => Return a
  | Err e => Fail e
  end.

(** ** Frames *)

(** [frame.HandshakeFrame]: the fields the server reads. *)
Record HandshakeFrame : Type := mkHandshakeFrame {
  Name : string;
  ClientType : Z
}.

(** [frame.DataFrame]: the four parts its accessors return. *)
Record DataFrame : Type := mkDataFrame {
  TransactionID : string;
  Issuer : string;
  DataTagID : Z;
  Carriage : list Z
}.

(** The frame kinds without fields of interest to the server. *)
Inductive PingFrame : Type := mkPingFrame.
Inductive PongFrame : Type := mkPongFrame.
Inductive AcceptedFrame : Type := mkAcceptedFrame.
Inductive RejectedFrame : Type := mkRejectedFrame.

(** [frame.Frame]: the interface, as the sum of its implementations. *)
Inductive Frame : Type :=
  | FHandshake (f : HandshakeFrame)
  | FData (f : DataFrame)
  | FPing (f : PingFrame)
  | FPong (f : PongFrame)
  | FAccepted (f : AcceptedFrame)
  | FRejected (f : RejectedFrame).

(** Package [internal/frame] is not part of the embedded sources: its tag
    constants, its decoders and [Encode] are taken as parameters. The case
    constants of the [switch] in [ParseFrame] are pairwise distinct, since
    the Go compiler rejects a switch with duplicate constant cases. *)
Class FramePkg : Type := {
  TagOfHandshakeFrame : Z;
  TagOfDataFrame : Z;
  TagOfPingFrame : Z;
  TagOfPongFrame : Z;
  TagOfAcceptedFrame : Z;
  TagOfRejectedFrame : Z;
  frame_tags : list Z :=
    [TagOfHandshakeFrame; TagOfDataFrame; TagOfPingFrame;
     TagOfPongFrame; TagOfAcceptedFrame; TagOfRejectedFrame];
  tags_are_bytes : Forall (fun t => 0 <= t < 256) frame_tags;
  case_constants_distinct : NoDup (map (Z.lor 0x80) frame_tags);
  DecodeToHandshakeFrame : list Z -> result HandshakeFrame;
  DecodeToDataFrame : list Z -> result DataFrame;
  DecodeToPingFrame : list Z -> result PingFrame;
  DecodeToPongFrame : list Z -> result PongFrame;
  DecodeToAcceptedFrame : list Z -> result AcceptedFrame;
  DecodeToRejectedFrame : list Z -> result RejectedFrame;
  Encode : Frame -> list Z
}.

(** ** stream_parser.go *)

Section StreamParser.
Context `{FramePkg}.

(** [f.Type()]: every frame kind reports its own tag. *)
Definition Type_ (f : Frame) : Z :=
  match f with
  | FHandshake _ => TagOfHandshakeFrame
  | FData _ => TagOfDataFrame
  | FPing _ => TagOfPingFrame
  | FPong _ => TagOfPongFrame
  | FAccepted _ => TagOfAcceptedFrame
  | FRejected _ => TagOfRejectedFrame
  end.

(** [readHandshakeFrame]: a decoding error becomes a panic. *)
Definition readHandshakeFrame (buf : list Z) : outcome HandshakeFrame :=
  match DecodeToHandshakeFrame buf with
  | Err err => Panic (PanicError err)
  | Ok handshake => Return handshake
  end.

(** [readDataFrame]: a decoding error becomes a panic. *)
Definition readDataFrame (buf : list Z) : outcome DataFrame :=
  match DecodeToDataFrame buf with
  | Err err => Panic (PanicError err)
  | Ok data => Return data
  end.

(** Lifts a frame of one kind, or its failure, into [Frame]. *)
Definition as_frame {A} (inj : A -> Frame) (o : outcome A) : outcome Frame :=
  match o with
  | Return a => Return (inj a)
  | Fail e => Fail e
  | Panic p => Panic p
  end.

(** [ParseFrame], given what [y3.ReadPacket(stream)] returned. The model
    follows the control flow of the function. The arguments of its
    [logger.Debugf] calls, among them accessors of the frame just decoded,
    are not evaluated, and a decoder is taken to return: a panic raised
    inside package [frame] is outside the model, which therefore states when
    [ParseFrame] panics by its own [panic(err)] and index, not when it does
    not panic. *)
Definition ParseFrame (packet : result (list Z)) : outcome Frame :=
  match packet with
  | Err err => Fail err
  | Ok buf =>
      match buf with
      | [] => Panic IndexOutOfRange
      | frameType :: _ =>
          if decide (frameType = Z.lor 0x80 TagOfHandshakeFrame) then
            as_frame FHandshake (readHandshakeFrame buf)
          else if decide (frameType = Z.lor 0x80 TagOfDataFrame) then
            as_frame FData (readDataFrame buf)
          else if decide (frameType = Z.lor 0x80 TagOfPingFrame) then
            as_frame FPing (of_result (DecodeToPingFrame buf))
          else if decide (frameType = Z.lor 0x80 TagOfPongFrame) then
            as_frame FPong (of_result (DecodeToPongFrame buf))
          else if decide (frameType = Z.lor 0x80 TagOfAcceptedFrame) then
            as_frame FAccepted (of_result (DecodeToAcceptedFrame buf))
          else if decide (frameType = Z.lor 0x80 TagOfRejectedFrame) then
            as_frame FRejected (of_result (DecodeToRejectedFrame buf))
          else Fail (UnknownFrameType frameType)
      end
  end.

End StreamParser.

(** ** The server *)

(** [quic.Stream] and [quic.Session] handles, told apart by an identifier. *)
Inductive Stream : Type := StreamID (id : Z).
Inductive Session : Type := SessionID (id : Z).

#[global] Instance Stream_eq_dec : EqDecision Stream.
Proof. solve_decision. Defined.
#[global] Instance Session_eq_dec : EqDecision Session.
Proof. solve_decision. Defined.

(** The connection types [handleHandShakeFrame] switches on are declared in
    another file of package [core]; they are distinct constants (they label
    the cases of one switch). *)
Class ConnTypes : Type := {
  ConnTypeSource : Z;
  ConnTypeStreamFunction : Z;
  ConnTypeUpstreamZipper : Z;
  conn_types_distinct :
    NoDup [ConnTypeSource; ConnTypeStreamFunction; ConnTypeUpstreamZipper]
}.

(** [Workflow], declared in another file of package [core]: a stage of the
    pipeline, [Seq] its position and [Token] the function expected there. *)
Record Workflow : Type := mkWorkflow {
  Seq : Z;
  Token : string
}.

#[global] Instance Workflow_eq_dec : EqDecision Workflow.
Proof. solve_decision. Defined.

Module ConcurrentMap.

(** Modelled from the spec: [ConcurrentMap], the Function Registry, whose
    file is not among the embedded sources. Section 4.2: [set(name, h)]
    replaces any existing entry for [name] and always succeeds;
    [get(name)] returns the handle or absent; [snapshot()] is a copy of the
    mapping. One lock guards the backing map, so each operation is a single
    atomic step on a finite map. *)
Definition Set_ (m : gmap string Stream) (name : string) (h : Stream)
  : gmap string Stream := <[name := h]> m.

Definition Get (m : gmap string Stream) (name : string) : option Stream :=
  m !! name.

Definition GetCurrentSnapshot (m : gmap string Stream) : gmap string Stream := m.

End ConcurrentMap.

(** The [Server] struct. *)
Record Server : Type := mkServer {
  stream : option Stream;
  state : string;
  funcs : gmap string Stream;
  counterOfDataFrame : Z;
  funcBuckets : gmap Z string
}.

(** [NewServer]. *)
Definition NewServer : Server :=
  {| stream := None; state := ""; funcs := ∅;
     counterOfDataFrame := 0; funcBuckets := ∅ |}.

Definition set_funcs (s : Server) (m : gmap string Stream) : Server :=
  {| stream := stream s; state := state s; funcs := m;
     counterOfDataFrame := counterOfDataFrame s; funcBuckets := funcBuckets s |}.

Definition set_counterOfDataFrame (s : Server) (c : Z) : Server :=
  {| stream := stream s; state := state s; funcs := funcs s;
     counterOfDataFrame := c; funcBuckets := funcBuckets s |}.

Definition set_funcBuckets (s : Server) (m : gmap Z string) : Server :=
  {| stream := stream s; state := state s; funcs := funcs s;
     counterOfDataFrame := counterOfDataFrame s; funcBuckets := m |}.

(** What the server does to the outside: a write of bytes to a stream, the
    close of a stream, the close of a session with an error code. The message
    of [CloseWithError] is [err.Error()]; the event keeps [err] itself. *)
Inductive event : Type :=
  | StreamWrite (target : Stream) (bytes : list Z)
  | StreamClose (st : Stream)
  | SessionCloseWithError (session : Session) (code : Z) (err : error).

(** [s.StatsFunctions()] and [s.StatsCounter()]. *)
Definition StatsFunctions (s : Server) : gmap string Stream :=
  ConcurrentMap.GetCurrentSnapshot (funcs s).

Definition StatsCounter (s : Server) : Z := counterOfDataFrame s.

(** [s.funcBuckets[j]]: a missing key reads as the empty string. *)
Definition bucket (s : Server) (j : Z) : string :=
  default ""%string (funcBuckets s !! j).

(** The [for i, k := range s.funcBuckets] loop of [handleDataFrame]. Go does
    not fix the order in which [range] visits a map, so the order of the
    visit, [scan], is an input; every entry whose token is [currentSfn]
    assigns [j = i + 1], and [j] starts as zero. *)
Definition nextBucket (scan : list (Z * string)) (currentSfn : string) : Z :=
  fold_left
    (fun (j : Z) (e : Z * string) =>
       if decide (e.2 = currentSfn) then GoInt.succ e.1 else j)
    scan 0.

(** The orders in which [range] may visit the stage table of [s]. *)
Definition range_order (s : Server) (scan : list (Z * string)) : Prop :=
  scan ≡ₚ map_to_list (funcBuckets s).

(** The effect of one iteration of [AddWorkflow]'s loop on the stage table. *)
Definition add_stage (m : gmap Z string) (wf : Workflow) : gmap Z string :=
  <[Seq wf := Token wf]> m.

(** [AddWorkflow]: the stage table after the loop, and the returned error
    ([None] is [nil]). *)
Definition AddWorkflow (s : Server) (wfs : list Workflow)
  : Server * option error :=
  (fold_left
     (fun (s : Server) (wf : Workflow) =>
        set_funcBuckets s (<[Seq wf := Token wf]> (funcBuckets s)))
     wfs s,
   None).

Section ServerHandlers.
Context `{FramePkg} `{ConnTypes}.

(** [handleHandShakeFrame]. *)
Definition handleHandShakeFrame (s : Server) (stream : Stream)
    (session : Session) (f : HandshakeFrame) : Server :=
  let clientType := ClientType f in
  if decide (clientType = ConnTypeSource) then s
  else if decide (clientType = ConnTypeStreamFunction) then
    set_funcs s (ConcurrentMap.Set_ (funcs s) (Name f) stream)
  else if decide (clientType = ConnTypeUpstreamZipper) then s
  else s.

(** [handlePingFrame]: logs only. *)
Definition handlePingFrame (s : Server) (stream : Stream)
    (session : Session) (f : PingFrame) : Server := s.

(** [handleDataFrame]: the new server state and the writes it made. *)
Definition handleDataFrame (s : Server) (scan : list (Z * string))
    (stream : Stream) (session : Session) (f : DataFrame)
  : Server * list event :=
  let s := set_counterOfDataFrame s (GoInt.succ (counterOfDataFrame s)) in
  let currentSfn := Issuer f in
  let j := nextBucket scan currentSfn in
  if decide (j = 0) then
    match ConcurrentMap.Get (funcs s) (bucket s 0) with
    | None => (s, [])
    | Some targetStream => (s, [StreamWrite targetStream (Encode (FData f))])
    end
  else if decide (String.length (bucket s j) = 0%nat) then (s, [])
  else
    match ConcurrentMap.Get (funcs s) (bucket s j) with
    | Some targetStream => (s, [StreamWrite targetStream (Encode (FData f))])
    | None => (s, [])
    end.

(** One read of [handleSession]'s loop: what [y3.ReadPacket] yields on the
    stream, and the order in which [range] would visit the stage table
    should the packet turn out to be a Data frame. *)
Record Read : Type := mkRead {
  packet : result (list Z);
  scan : list (Z * string)
}.

(** Modelled from the spec: [FrameStream.ReadFrame], declared in another
    file of package [core]. Section 2: the manager reads frames in a loop
    and the Frame Codec decodes each; the error of a failed read is logged
    by [handleSession] as coming from [ParseFrame]. *)
Definition ReadFrame (r : Read) : outcome Frame := ParseFrame (packet r).

(** The [switch frameType] of [handleSession]'s loop body; the type
    assertion of a case panics when [f] is not of the asserted kind. *)
Definition dispatch (s : Server) (stream : Stream) (session : Session)
    (scan : list (Z * string)) (f : Frame)
  : Server * list event + panic_value :=
  let frameType := Type_ f in
  if decide (frameType = TagOfHandshakeFrame) then
    match f with
    | FHandshake h => inl (handleHandShakeFrame s stream session h, [])
    | _ => inr TypeAssertion
    end
  else if decide (frameType = TagOfPingFrame) then
    match f with
    | FPing p => inl (handlePingFrame s stream session p, [])
    | _ => inr TypeAssertion
    end
  else if decide (frameType = TagOfDataFrame) then
    match f with
    | FData d => inl (handleDataFrame s scan stream session d)
    | _ => inr TypeAssertion
    end
  else inl (s, []).

(** How a loop of the server is left: it returned, a panic ended the
    process, or it is blocked waiting for input that never comes. *)
Inductive exit : Type :=
  | Returned
  | Crashed (p : panic_value)
  | Blocked.

(** [handleSession], run against the reads the stream will deliver. *)
Fixpoint handleSession (s : Server) (stream : Stream) (session : Session)
    (reads : list Read) : Server * list event * exit :=
  match reads with
  | [] => (s, [], Blocked)
  | r :: reads' =>
      match ReadFrame r with
      | Panic p => (s, [], Crashed p)
      | Fail err =>
          if errors_Is_ErrClosed err then (s, [], Returned)
          else (s, [StreamClose stream;
                    SessionCloseWithError session 0xCC err], Returned)
      | Return f =>
          match dispatch s stream session (scan r) f with
          | inr p => (s, [], Crashed p)
          | inl (s1, evs) =>
              let '(s2, evs', ex) := handleSession s1 stream session reads' in
              (s2, evs ++ evs', ex)
          end
      end
  end.

(** Whether [session.CloseWithError] was called on [session]. *)
Definition session_closed (session : Session) (evs : list event) : bool :=
  existsb
    (fun e => match e with
              | SessionCloseWithError session' _ _ =>
                  bool_decide (session' = session)
              | _ => false
              end)
    evs.

(** The goroutine [ListenAndServe] starts for an accepted connection.
    [incoming] holds the streams the peer opens, each with its reads.
    [sess.AcceptStream] returns an error once the session was closed with
    [CloseWithError] (as the comment in [handleSession] says), and when no
    stream is left; the loop then ends and the deferred [stream.Close()]
    calls run, last deferred first. The result lists the streams that were
    accepted. *)
Fixpoint serveSession (s : Server) (session : Session) (closed : bool)
    (deferred : list Stream) (incoming : list (Stream * list Read))
  : Server * list event * list Stream * exit :=
  if closed then (s, map StreamClose deferred, [], Returned)
  else
    match incoming with
    | [] => (s, map StreamClose deferred, [], Returned)
    | (stream, reads) :: incoming' =>
        let deferred' := stream :: deferred in
        let '(s1, evs, ex) := handleSession s stream session reads in
        match ex with
        | Returned =>
            let '(s2, evs2, acc, ex2) :=
              serveSession s1 session (session_closed session evs)
                deferred' incoming' in
            (s2, evs ++ evs2, stream :: acc, ex2)
        | Crashed p =>
            (s1, evs ++ map StreamClose deferred', [stream], Crashed p)
        | Blocked => (s1, evs, [stream], Blocked)
        end
    end.

End ServerHandlers.

(** ** Concurrent connection tasks and the counter *)

Module CounterRace.

(** [ListenAndServe] runs one goroutine per connection, all on the same
    [*Server]. The statement [s.counterOfDataFrame++] of [handleDataFrame]
    is a plain read-modify-write of a shared [int64]: the task loads the
    field, then stores the loaded value plus one; no lock and no atomic
    operation orders the two against the other tasks. A task is [Ready]
    before the load, [Loaded v] between the two accesses, and [Counted]
    once its Data frame is counted. *)
Inductive task : Type :=
  | Ready
  | Loaded (v : Z)
  | Counted.

#[global] Instance task_eq_dec : EqDecision task.
Proof. solve_decision. Defined.

Record machine : Type := mkMachine {
  server : Server;
  tasks : list task
}.

(** [n] connection tasks, each about to handle one Data frame. *)
Definition start (s : Server) (n : nat) : machine :=
  {| server := s; tasks := replicate n Ready |}.

(** Task [tid] performs its next memory access. *)
Definition step (m : machine) (tid : nat) : option machine :=
  match tasks m !! tid with
  | Some Ready =>
      Some {| server := server m;
              tasks := <[tid := Loaded (counterOfDataFrame (server m))]> (tasks m) |}
  | Some (Loaded v) =>
      Some {| server := set_counterOfDataFrame (server m) (GoInt.succ v);
              tasks := <[tid := Counted]> (tasks m) |}
  | Some Counted | None => None
  end.

(** An interleaving: the task to step next, one access at a time. *)
Fixpoint run (m : machine) (schedule : list nat) : option machine :=
  match schedule with
  | [] => Some m
  | tid :: schedule' =>
      match step m tid with
      | Some m' => run m' schedule'
      | None => None
      end
  end.

(** Data frames processed so far. *)
Definition processed (m : machine) : nat :=
  length (filter (fun t => t = Counted) (tasks m)).

(** The schedule in which every task runs its load and store back to back. *)
Fixpoint serial (n : nat) : list nat :=
  match n with
  | O => []
  | S k => serial k ++ [k; k]
  end.

End CounterRace.

(** ** A sample instance of the parameters

    Concrete tag and connection-type constants and a two-byte codec, to run
    the definitions on concrete inputs. A Handshake packet is the case
    constant followed by the client type, a Data packet the case constant
    followed by the data tag; anything else is malformed. *)

Module Sample.

Definition truncated : error := errors_New "truncated packet".

Definition decodeHandshake (buf : list Z) : result HandshakeFrame :=
  match buf with
  | [_; clientType] => Ok {| Name := "sfn"; ClientType := clientType |}
  | _ => Err truncated
  end.

Definition decodeData (buf : list Z) : result DataFrame :=
  match buf with
  | [b; tag] =>
      if decide (b = 0xBF) then
        Ok {| TransactionID := ""; Issuer := "SRC"; DataTagID := tag; Carriage := [] |}
      else Err truncated
  | _ => Err truncated
  end.

Definition encode (f : Frame) : list Z :=
  match f with
  | FHandshake h => [0xBD; ClientType h]
  | FData d => [0xBF; DataTagID d]
  | FPing _ => [0xBC]
  | FPong _ => [0xBB]
  | FAccepted _ => [0xBA]
  | FRejected _ => [0xB9]
  end.

#[refine, export] Instance frames : FramePkg := {|
  TagOfHandshakeFrame := 0x3D;
  TagOfDataFrame := 0x3F;
  TagOfPingFrame := 0x3C;
  TagOfPongFrame := 0x3B;
  TagOfAcceptedFrame := 0x3A;
  TagOfRejectedFrame := 0x39;
  DecodeToHandshakeFrame := decodeHandshake;
  DecodeToDataFrame := decodeData;
  DecodeToPingFrame := fun _ => Ok mkPingFrame;
  DecodeToPongFrame := fun _ => Ok mkPongFrame;
  DecodeToAcceptedFrame := fun _ => Ok mkAcceptedFrame;
  DecodeToRejectedFrame := fun _ => Ok mkRejectedFrame;
  Encode := encode
|}.
Proof.
  - repeat constructor; lia.
  - compute_done.
Defined.

#[refine, export] Instance conns : ConnTypes := {|
  ConnTypeSource := 0x5F;
  ConnTypeStreamFunction := 0x5D;
  ConnTypeUpstreamZipper := 0x5E
|}.
Proof. compute_done. Defined.

(** The workflow of the end-to-end scenario: stage 0 is [A], stage 1 is [B],
    and both functions are connected. *)
Definition pipeline : Server :=
  {| stream := None; state := "";
     funcs := <["A" := StreamID 10]> (<["B" := StreamID 11]> ∅);
     counterOfDataFrame := 0;
     funcBuckets := <[0 := "A"]> (<[1 := "B"]> ∅) |}.

(** A stage table in which token [A] stands at two positions; only [B] and
    [C] are connected. *)
Definition twice : Server :=
  {| stream := None; state := "";
     funcs := <["B" := StreamID 11]> (<["C" := StreamID 12]> ∅);
     counterOfDataFrame := 0;
     funcBuckets :=
       <[0 := "A"]> (<[1 := "B"]> (<[2 := "A"]> (<[3 := "C"]> ∅))) |}.

(** A stage table whose only stage is at position [-1], and a function
    registered under the empty name. *)
Definition before_zero : Server :=
  {| stream := None; state := "";
     funcs := <["" := StreamID 9]> ∅;
     counterOfDataFrame := 0;
     funcBuckets := <[-1 := "A"]> ∅ |}.

(** A Data frame issued by [issuer]. *)
Definition frame_from (issuer : string) : DataFrame :=
  {| TransactionID := "tid"; Issuer := issuer; DataTagID := 0x10;
     Carriage := [1; 2; 3] |}.

Definition inbound : Stream := StreamID 1.
Definition peer : Session := SessionID 1.

Definition timeout : error := errors_New "timeout: no recent network activity".

End Sample.

(** ** A sample codec that does not re-encode to the packet

    As a tag-length-value decoder does with what it does not know, the Data
    decoder of this instance reads the case constant and the data tag and
    skips the bytes that follow; the encoder writes the two bytes of the
    fields it knows. The other parameters are those of [Sample]. *)

Module Lenient.

Definition decodeData (buf : list Z) : result DataFrame :=
  match buf with
  | b :: tag :: _ =>
      if decide (b = 0xBF) then
        Ok {| TransactionID := ""; Issuer := "SRC"; DataTagID := tag; Carriage := [] |}
      else Err Sample.truncated
  | _ => Err Sample.truncated
  end.

#[refine, export] Instance frames : FramePkg := {|
  TagOfHandshakeFrame := 0x3D;
  TagOfDataFrame := 0x3F;
  TagOfPingFrame := 0x3C;
  TagOfPongFrame := 0x3B;
  TagOfAcceptedFrame := 0x3A;
  TagOfRejectedFrame := 0x39;
  DecodeToHandshakeFrame := Sample.decodeHandshake;
  DecodeToDataFrame := decodeData;
  DecodeToPingFrame := fun _ => Ok mkPingFrame;
  DecodeToPongFrame := fun _ => Ok mkPongFrame;
  DecodeToAcceptedFrame := fun _ => Ok mkAcceptedFrame;
  DecodeToRejectedFrame := fun _ => Ok mkRejectedFrame;
  Encode := Sample.encode
|}.
Proof.
  - repeat constructor; lia.
  - compute_done.
Defined.

End Lenient.

(** ** The routing rule in the specification's words *)

Section RoutingRule.
Context `{FramePkg}.

(** What the specification's routing rule (section 4.3, steps 3 to 5) does
    with Data frame [f] once the target stage is [j]: the frame is dropped
    when stage [j] has no token or an empty one, dropped when the token is
    not in the Function Registry, and otherwise its encoding is written to
    the stream registered under the token. *)
Definition forward_to_stage (s : Server) (j : Z) (f : DataFrame) : list event :=
  match funcBuckets s !! j with
  | None => []
  | Some token =>
      if decide (token = ""%string) then []
      else
        match funcs s !! token with
        | None => []
        | Some target => [StreamWrite target (Encode (FData f))]
        end
  end.

End RoutingRule.

(** The events that are writes to a stream. *)
Definition is_write (e : event) : Prop :=
  match e with
  | StreamWrite _ _ => True
  | StreamClose _ | SessionCloseWithError _ _ _ => False
  end.

(** ** Closing and listening *)

Definition set_state (s : Server) (st : string) : Server :=
  {| stream := stream s; state := st; funcs := funcs s;
     counterOfDataFrame := counterOfDataFrame s; funcBuckets := funcBuckets s |}.

(** [Close]: [close st] is what [s.stream.Close()] returns for stream [st]
    ([None] is [nil]). The result is the events and the returned error. *)
Definition Close (s : Server) (close : Stream -> option error)
  : list event * option error :=
  match stream s with
  | Some st =>
      match close st with
      | Some err => ([StreamClose st], Some err)
      | None => ([StreamClose st], None)
      end
  | None => ([], None)
  end.

(** How [ListenAndServe] is left: it returned [finalErr], or it is blocked
    in [listener.Accept] with no connection coming. *)
Inductive listen_exit : Type :=
  | ListenReturned (finalErr : option error)
  | ListenBlocked.

(** The accept loop of [ListenAndServe], run against the results of the
    successive [listener.Accept] calls: the sessions for which a goroutine
    was started, in order, and how the loop was left. *)
Fixpoint acceptLoop (accepts : list (result Session))
  : list Session * listen_exit :=
  match accepts with
  | [] => ([], ListenBlocked)
  | Err err :: _ => ([], ListenReturned (Some err))
  | Ok session :: accepts' =>
      let '(started, ex) := acceptLoop accepts' in
      (session :: started, ex)
  end.

(** [ListenAndServe]. [listen] is the error of [quic.ListenAddr] ([None] is
    [nil]); [ConnStateConnected] is a constant of another file of package
    [core]. The goroutines started run beside the loop; the result names
    their sessions. *)
Definition ListenAndServe (ConnStateConnected : string) (s : Server)
    (listen : option error) (accepts : list (result Session))
  : Server * list Session * listen_exit :=
  match listen with
  | Some err => (s, [], ListenReturned (Some err))
  | None =>
      let s := set_state s ConnStateConnected in
      let '(started, ex) := acceptLoop accepts in
      (s, started, ex)
  end.

(** The Data frames among the frames a list of reads delivers. *)
Definition is_data (f : Frame) : bool :=
  match f with
  | FData _ => true
  | _ => false
  end.

Section Counting.
Context `{FramePkg}.

(** Whether a read delivers a Data frame. *)
Definition delivers_data (r : Read) : bool :=
  match ReadFrame r with
  | Return f => is_data f
  | Fail _ | Panic _ => false
  end.

(** The number of Data frames a list of reads delivers. *)
Definition data_frames (reads : list Read) : nat :=
  length (List.filter delivers_data reads).

End Counting.

(** What every interleaving keeps, the counter having started at [c0]:
    the counter and every loaded value lie between [c0] and [c0] plus the
    number of frames processed, and the counter is above [c0] once a frame
    was processed. *)
Definition race_bounds (c0 : Z) (m : CounterRace.machine) : Prop :=
  let done := Z.of_nat (CounterRace.processed m) in
  let c := counterOfDataFrame (CounterRace.server m) in
  c0 <= c <= c0 + done /\
  (0 < done -> c0 + 1 <= c) /\
  Forall
    (fun t => match t with
              | CounterRace.Loaded v => c0 <= v <= c0 + done
              | CounterRace.Ready | CounterRace.Counted => True
              end)
    (CounterRace.tasks m).

(** * Properties *)

(** ** Go integers *)

Module GoIntFacts.
Import GoInt.

Lemma wrap_in_range z : in_range (wrap z).
Proof.
  unfold in_range, wrap, min_int, max_int, bits.
  pose proof (Z.mod_pos_bound (z - - 2 ^ (64 - 1)) (2 ^ 64) ltac:(lia)).
  change (2 ^ (64 - 1)) with 9223372036854775808 in *.
  change (2 ^ 64) with 18446744073709551616 in *. lia.
Qed.

Lemma wrap_id z : in_range z -> wrap z = z.
Proof.
  unfold in_range, wrap, min_int, max_int, bits.
  change (2 ^ (64 - 1)) with 9223372036854775808.
  change (2 ^ 64) with 18446744073709551616.
  intros Hz. rewrite Z.mod_small; lia.
Qed.

Lemma succ_no_overflow z : min_int <= z < max_int -> succ z = z + 1.
Proof. intros Hz. apply wrap_id. unfold in_range. lia. Qed.

Lemma succ_overflow : succ max_int = min_int.
Proof. reflexivity. Qed.

(** Among the stage positions from zero on, no successor is zero. *)
Lemma succ_nonzero z : 0 <= z < max_int -> succ z <> 0.
Proof.
  intros Hz. rewrite succ_no_overflow; [lia|].
  unfold min_int, bits. change (2 ^ (64 - 1)) with 9223372036854775808. lia.
Qed.

End GoIntFacts.

(** ** Frame parsing *)

Section ParseFacts.
Context `{FramePkg}.

(** The kind bits of a case constant are those of its tag. *)
Lemma case_constant_kind (t : Z) :
  Z.land (Z.lor 0x80 t) 0x7F = Z.land t 0x7F.
Proof. rewrite Z.land_lor_distr_l. reflexivity. Qed.

Lemma frame_tags_eq :
  frame_tags =
    [TagOfHandshakeFrame; TagOfDataFrame; TagOfPingFrame;
     TagOfPongFrame; TagOfAcceptedFrame; TagOfRejectedFrame].
Proof. reflexivity. Qed.

(** A first byte whose kind bits are no tag's differs from every case
    constant of the switch. *)
Lemma unknown_kind_no_case (b : Z) :
  Z.land b 0x7F ∉ map (fun t => Z.land t 0x7F) frame_tags ->
  Forall (fun t => b <> Z.lor 0x80 t) frame_tags.
Proof.
  intros Hb. apply Forall_forall. intros t Ht ->.
  apply Hb. rewrite case_constant_kind.
  apply (list_elem_of_fmap_2 (fun t => Z.land t 0x7F)), Ht.
Qed.

(** The default branch is the one taken when no case constant matches. *)
Lemma ParseFrame_default (b : Z) (rest : list Z) :
  Forall (fun t => b <> Z.lor 0x80 t) frame_tags ->
  ParseFrame (Ok (b :: rest)) = Fail (UnknownFrameType b).
Proof.
  rewrite frame_tags_eq. intros Hb.
  repeat (apply Forall_cons in Hb as [? Hb]).
  unfold ParseFrame. repeat case_decide; congruence.
Qed.

(** The case constants of Handshake and Data differ. *)
Lemma data_case_not_handshake :
  Z.lor 0x80 TagOfDataFrame <> Z.lor 0x80 TagOfHandshakeFrame.
Proof.
  pose proof case_constants_distinct as Hnd. rewrite frame_tags_eq in Hnd.
  cbn [map] in Hnd. apply NoDup_cons in Hnd as [Hnd _].
  intros Heq. apply Hnd. rewrite Heq. left.
Qed.

Lemma ParseFrame_handshake (buf rest : list Z) :
  buf = Z.lor 0x80 TagOfHandshakeFrame :: rest ->
  ParseFrame (Ok buf) = as_frame FHandshake (readHandshakeFrame buf).
Proof. intros ->. unfold ParseFrame. case_decide; [reflexivity|congruence]. Qed.

Lemma ParseFrame_data (buf rest : list Z) :
  buf = Z.lor 0x80 TagOfDataFrame :: rest ->
  ParseFrame (Ok buf) = as_frame FData (readDataFrame buf).
Proof.
  intros ->. unfold ParseFrame.
  pose proof data_case_not_handshake.
  repeat case_decide; congruence.
Qed.

(** What a packet looked like when [ParseFrame] returned a Data frame. *)
Lemma ParseFrame_returns_data (buf : list Z) (d : DataFrame) :
  ParseFrame (Ok buf) = Return (FData d) ->
  DecodeToDataFrame buf = Ok d.
Proof.
  unfold ParseFrame. destruct buf as [|b rest]; [discriminate|].
  unfold readHandshakeFrame, readDataFrame, as_frame, of_result.
  repeat case_decide;
    repeat match goal with
           | |- context [match ?x with Ok _ => _ | Err _ => _ end] =>
               destruct x eqn:?
           end; congruence.
Qed.

End ParseFacts.

Section SessionFacts.
Context `{FramePkg} `{ConnTypes}.

(** A read that makes [ReadFrame] panic ends [handleSession] in a crash:
    nothing between the read and the goroutine's top recovers. *)
Lemma handleSession_read_panics (s : Server) (stream : Stream)
    (session : Session) (r : Read) (reads : list Read) (p : panic_value) :
  ReadFrame r = Panic p ->
  handleSession s stream session (r :: reads) = (s, [], Crashed p).
Proof. intros Hr. cbn [handleSession]. rewrite Hr. reflexivity. Qed.

(** A read error other than [net.ErrClosed] closes stream and session. *)
Lemma handleSession_read_fails (s : Server) (stream : Stream)
    (session : Session) (r : Read) (reads : list Read) (err : error) :
  ReadFrame r = Fail err ->
  errors_Is_ErrClosed err = false ->
  handleSession s stream session (r :: reads) =
    (s, [StreamClose stream; SessionCloseWithError session 0xCC err], Returned).
Proof. intros Hr He. cbn [handleSession]. rewrite Hr, He. reflexivity. Qed.

(** C9. A packet whose first byte, with the marker bit dropped, is the kind
    of no frame tag makes [ParseFrame] return the unknown-frame-type error:
    the call returns an error and does not panic, and the byte equals none of
    the case constants of the switch, so no recognized branch is taken. *)
Theorem ParseFrame_unknown_kind (b : Z) (rest : list Z) :
  Z.land b 0x7F ∉ map (fun t => Z.land t 0x7F) frame_tags ->
  ParseFrame (Ok (b :: rest)) = Fail (UnknownFrameType b) /\
  Forall (fun t => b <> Z.lor 0x80 t) frame_tags.
Proof.
  intros Hb. apply unknown_kind_no_case in Hb.
  split; [apply ParseFrame_default|]; exact Hb.
Qed.

(** The reading task outlives an unknown frame kind: [handleSession] returns,
    having closed the stream and the session with code [0xCC]. *)
Lemma handleSession_unknown_kind (s : Server) (stream : Stream)
    (session : Session) (b : Z) (rest : list Z) (scan : list (Z * string))
    (reads : list Read) :
  Z.land b 0x7F ∉ map (fun t => Z.land t 0x7F) frame_tags ->
  handleSession s stream session (mkRead (Ok (b :: rest)) scan :: reads) =
    (s, [StreamClose stream;
         SessionCloseWithError session 0xCC (UnknownFrameType b)], Returned).
Proof.
  intros Hb. apply handleSession_read_fails; [|reflexivity].
  unfold ReadFrame. cbn [packet].
  apply ParseFrame_default, unknown_kind_no_case, Hb.
Qed.

(** C1, evaluated on the code. A packet that selects Handshake or Data and
    whose body the decoder of that kind rejects with error [e] makes
    [ParseFrame] panic with [e] instead of returning an error, and the panic
    ends [handleSession] in a crash. *)
Theorem ParseFrame_malformed_body_panics (b : Z) (rest : list Z) (e : error) :
  (b = Z.lor 0x80 TagOfHandshakeFrame /\
   DecodeToHandshakeFrame (b :: rest) = Err e) \/
  (b = Z.lor 0x80 TagOfDataFrame /\
   DecodeToDataFrame (b :: rest) = Err e) ->
  ParseFrame (Ok (b :: rest)) = Panic (PanicError e) /\
  forall (s : Server) (stream : Stream) (session : Session)
         (scan : list (Z * string)) (reads : list Read),
    handleSession s stream session (mkRead (Ok (b :: rest)) scan :: reads) =
      (s, [], Crashed (PanicError e)).
Proof.
  intros Hbad.
  assert (Hp : ParseFrame (Ok (b :: rest)) = Panic (PanicError e)).
  { destruct Hbad as [[-> Hd]|[-> Hd]].
    - rewrite (ParseFrame_handshake _ rest eq_refl).
      unfold readHandshakeFrame. rewrite Hd. reflexivity.
    - rewrite (ParseFrame_data _ rest eq_refl).
      unfold readDataFrame. rewrite Hd. reflexivity. }
  split; [exact Hp|]. intros s stream session scan reads.
  apply handleSession_read_panics. exact Hp.
Qed.

End SessionFacts.

Section ParseRuns.
Import Sample.

(** On the sample codec: the byte [0x81] is of no known kind. *)
Lemma ParseFrame_unknown_kind_witness :
  ParseFrame (Ok [0x81]) = Fail (UnknownFrameType 0x81) /\
  Forall (fun t => 0x81 <> Z.lor 0x80 t) frame_tags.
Proof. apply (ParseFrame_unknown_kind 0x81 []). compute_done. Defined.

(** On the sample codec: a Handshake packet cut after its first byte. *)
Lemma ParseFrame_malformed_body_panics_witness :
  ParseFrame (Ok [0xBD]) = Panic (PanicError Sample.truncated) /\
  forall (s : Server) (stream : Stream) (session : Session)
         (scan : list (Z * string)) (reads : list Read),
    handleSession s stream session (mkRead (Ok [0xBD]) scan :: reads) =
      (s, [], Crashed (PanicError Sample.truncated)).
Proof.
  apply (ParseFrame_malformed_body_panics 0xBD [] Sample.truncated).
  left. split; reflexivity.
Defined.

End ParseRuns.

(** ** Routing *)

Section RoutingFacts.
Context `{FramePkg}.

Lemma nextBucket_snoc (scan : list (Z * string)) (e : Z * string)
    (currentSfn : string) :
  nextBucket (scan ++ [e]) currentSfn =
    if decide (e.2 = currentSfn) then GoInt.succ e.1
    else nextBucket scan currentSfn.
Proof. unfold nextBucket. rewrite fold_left_app. reflexivity. Qed.

(** The loop has no [break]: the entry visited last among those carrying the
    issuer's token decides, and [j] stays zero when there is none. *)
Lemma nextBucket_last_match (scan : list (Z * string)) (currentSfn : string) :
  nextBucket scan currentSfn =
    match last (filter (fun e => e.2 = currentSfn) scan) with
    | Some e => GoInt.succ e.1
    | None => 0
    end.
Proof.
  induction scan as [|e scan IH] using rev_ind; [reflexivity|].
  rewrite nextBucket_snoc, filter_app, filter_cons, filter_nil.
  case_decide.
  - rewrite last_snoc. reflexivity.
  - rewrite app_nil_r. exact IH.
Qed.

Lemma nextBucket_no_match (scan : list (Z * string)) (currentSfn : string) :
  (forall e, e ∈ scan -> e.2 <> currentSfn) ->
  nextBucket scan currentSfn = 0.
Proof.
  intros Hno. rewrite nextBucket_last_match.
  destruct (last _) as [e|] eqn:Hlast; [|reflexivity].
  apply last_Some_elem_of, list_elem_of_filter in Hlast as [He Hin].
  destruct (Hno e Hin He).
Qed.

Lemma nextBucket_unique (scan : list (Z * string)) (currentSfn : string)
    (i : Z) :
  (i, currentSfn) ∈ scan ->
  (forall e, e ∈ scan -> e.2 = currentSfn -> e.1 = i) ->
  nextBucket scan currentSfn = GoInt.succ i.
Proof.
  intros Hin Huniq. rewrite nextBucket_last_match.
  destruct (last _) as [e|] eqn:Hlast.
  - apply last_Some_elem_of, list_elem_of_filter in Hlast as [He Hine].
    rewrite (Huniq e Hine He). reflexivity.
  - apply last_None in Hlast.
    assert (Hf : (i, currentSfn) ∈ filter (fun e => e.2 = currentSfn) scan)
      by (apply list_elem_of_filter; split; [reflexivity|exact Hin]).
    rewrite Hlast in Hf. apply elem_of_nil in Hf. destruct Hf.
Qed.

(** A visit of the stage table meets exactly its entries. *)
Lemma range_order_elem (s : Server) (scan : list (Z * string)) (i : Z)
    (k : string) :
  range_order s scan ->
  (i, k) ∈ scan <-> funcBuckets s !! i = Some k.
Proof.
  unfold range_order. intros Hperm. rewrite Hperm.
  apply elem_of_map_to_list.
Qed.

Lemma length_zero_empty (t : string) : String.length t = 0%nat <-> t = ""%string.
Proof. destruct t; cbn; split; congruence. Qed.

(** The state [handleDataFrame] leaves: only the counter moved. *)
Lemma handleDataFrame_state (s : Server) (scan : list (Z * string))
    (stream : Stream) (session : Session) (f : DataFrame) :
  (handleDataFrame s scan stream session f).1 =
    set_counterOfDataFrame s (GoInt.succ (counterOfDataFrame s)).
Proof.
  unfold handleDataFrame.
  repeat first [case_decide | destruct (ConcurrentMap.Get _ _)]; reflexivity.
Qed.

(** The writes of [handleDataFrame] when the loop leaves [j] at zero. *)
Lemma handleDataFrame_first (s : Server) (scan : list (Z * string))
    (stream : Stream) (session : Session) (f : DataFrame) :
  nextBucket scan (Issuer f) = 0 ->
  (handleDataFrame s scan stream session f).2 =
    match funcs s !! bucket s 0 with
    | Some target => [StreamWrite target (Encode (FData f))]
    | None => []
    end.
Proof.
  intros Hj. unfold handleDataFrame. rewrite Hj.
  rewrite decide_True by reflexivity.
  unfold ConcurrentMap.Get, bucket. cbn [funcs funcBuckets set_counterOfDataFrame].
  destruct (funcs s !! _); reflexivity.
Qed.

(** The writes of [handleDataFrame] when the loop leaves [j] non-zero: the
    specification's rule for stage [j]. *)
Lemma handleDataFrame_next (s : Server) (scan : list (Z * string))
    (stream : Stream) (session : Session) (f : DataFrame) (j : Z) :
  nextBucket scan (Issuer f) = j ->
  j <> 0 ->
  (handleDataFrame s scan stream session f).2 = forward_to_stage s j f.
Proof.
  intros Hj Hnz. unfold handleDataFrame, forward_to_stage. rewrite Hj.
  rewrite decide_False by exact Hnz.
  unfold ConcurrentMap.Get, bucket. cbn [funcs funcBuckets set_counterOfDataFrame].
  destruct (funcBuckets s !! j) as [token|]; unfold default; cbn [from_option id].
  - destruct (decide (token = ""%string)) as [->|Hne].
    + reflexivity.
    + rewrite decide_False by (rewrite length_zero_empty; exact Hne).
      destruct (funcs s !! token); reflexivity.
  - reflexivity.
Qed.

End RoutingFacts.

Section RoutingClaims.
Context `{FramePkg}.

(** C2, amended. Let the issuer of a Data frame be the token of stage [i] and
    of no other stage, [i] being a position from zero on whose successor is a
    Go [int]. Whatever the order in which [range] visits the stage table,
    [handleDataFrame] treats the frame as the routing rule prescribes for
    stage [i + 1]: it writes the frame's encoding to the stream registered
    under that stage's token when the stage has a non-empty token and the
    token is in the registry, and writes nothing otherwise. *)
Theorem handleDataFrame_routes_to_next_stage (s : Server)
    (scan : list (Z * string)) (stream : Stream) (session : Session)
    (f : DataFrame) (i : Z) :
  range_order s scan ->
  funcBuckets s !! i = Some (Issuer f) ->
  (forall i', funcBuckets s !! i' = Some (Issuer f) -> i' = i) ->
  0 <= i < GoInt.max_int ->
  (handleDataFrame s scan stream session f).2 = forward_to_stage s (i + 1) f.
Proof.
  intros Hscan Hi Huniq Hrange.
  assert (Hj : nextBucket scan (Issuer f) = GoInt.succ i).
  { apply nextBucket_unique.
    - apply (range_order_elem s); assumption.
    - intros [i' k] Hin Hk. cbn in Hk |- *. subst k.
      apply Huniq, (range_order_elem s scan); assumption. }
  rewrite (handleDataFrame_next s scan stream session f _ Hj)
    by (apply GoIntFacts.succ_nonzero; exact Hrange).
  rewrite GoIntFacts.succ_no_overflow; [reflexivity|].
  unfold GoInt.min_int, GoInt.bits.
  change (2 ^ (64 - 1)) with 9223372036854775808. lia.
Qed.

(** When no stage carries the issuer of a Data frame the loop leaves [j] at
    zero and the frame is for stage zero. Where stage zero holds a non-empty
    token, or no function is registered under the empty name, the frame is
    treated as the routing rule prescribes for stage zero, whatever the
    order of the visit: written, encoded, to the stream registered under the
    stage's token, dropped when the token is not in the registry. *)
Theorem handleDataFrame_unmatched_issuer_first_stage (s : Server)
    (scan : list (Z * string)) (stream : Stream) (session : Session)
    (f : DataFrame) :
  range_order s scan ->
  (forall i, funcBuckets s !! i <> Some (Issuer f)) ->
  (exists token, funcBuckets s !! 0 = Some token /\ token <> ""%string) \/
  funcs s !! ""%string = None ->
  (handleDataFrame s scan stream session f).2 = forward_to_stage s 0 f.
Proof.
  intros Hscan Hno Hzero.
  rewrite handleDataFrame_first.
  2:{ apply nextBucket_no_match. intros [i k] Hin Hk. cbn in Hk. subst k.
      apply (Hno i), (range_order_elem s scan); assumption. }
  unfold forward_to_stage, bucket.
  destruct Hzero as [(token & Htoken & Hne)|Hempty].
  - rewrite Htoken. cbn. rewrite decide_False by exact Hne. reflexivity.
  - destruct (funcBuckets s !! 0) as [token|]; cbn.
    + destruct (decide (token = ""%string)) as [->|Hne]; [|reflexivity].
      rewrite Hempty. reflexivity.
    + rewrite Hempty. reflexivity.
Qed.

(** C10. Handling a Data frame adds exactly one to the counter read by
    [StatsCounter], for every frame, every stage table, every registry and
    every order of the visit: on the paths that drop the frame as on those
    that forward it. The routing state is left as it was. *)
Theorem handleDataFrame_counts_every_frame (s : Server)
    (scan : list (Z * string)) (stream : Stream) (session : Session)
    (f : DataFrame) :
  GoInt.min_int <= counterOfDataFrame s < GoInt.max_int ->
  let s' := (handleDataFrame s scan stream session f).1 in
  StatsCounter s' = StatsCounter s + 1 /\
  funcs s' = funcs s /\ funcBuckets s' = funcBuckets s.
Proof.
  intros Hc s'. subst s'. rewrite handleDataFrame_state.
  unfold StatsCounter. cbn. rewrite GoIntFacts.succ_no_overflow by exact Hc.
  repeat split.
Qed.

End RoutingClaims.

Section RoutingRuns.
Import Sample.

Lemma pipeline_stage (i : Z) (k : string) :
  funcBuckets pipeline !! i = Some k ->
  (i = 0 /\ k = "A"%string) \/ (i = 1 /\ k = "B"%string).
Proof.
  unfold pipeline. cbn [funcBuckets]. rewrite !lookup_insert, lookup_empty.
  repeat case_decide; intros Hk; simplify_eq; auto.
Qed.

(** The end-to-end scenario: a frame from [A] goes to [B]. *)
Lemma handleDataFrame_routes_to_next_stage_witness :
  (handleDataFrame pipeline [(1, "B"%string); (0, "A"%string)] inbound peer
     (frame_from "A")).2 =
    forward_to_stage pipeline (0 + 1) (frame_from "A").
Proof.
  apply handleDataFrame_routes_to_next_stage.
  - unfold range_order. compute_done.
  - reflexivity.
  - intros i' Hi'. apply pipeline_stage in Hi' as [[-> _]|[_ Hk]];
      [reflexivity|discriminate Hk].
  - compute_done.
Defined.

(** The scenario's other runs, computed: a frame from [A] is written to the
    stream of [B], a frame from [B], the last stage, is dropped. *)
Example scenario_from_A :
  (handleDataFrame pipeline [(1, "B"%string); (0, "A"%string)] inbound peer
     (frame_from "A")).2 =
    [StreamWrite (StreamID 11) (Encode (FData (frame_from "A")))].
Proof. reflexivity. Qed.

Example scenario_from_B :
  handleDataFrame pipeline [(1, "B"%string); (0, "A"%string)] inbound peer
    (frame_from "B") =
    (set_counterOfDataFrame pipeline 1, []).
Proof. reflexivity. Qed.

(** C2 as stated fails on the code. In [twice] the issuer [A] is the token
    of stage 0, and [range] may visit the table by ascending position; the
    frame is then written to the stream of [C], the token of stage 3, where
    the claim asks for the stream of [B], the token of stage 1. *)
Lemma handleDataFrame_repeated_token_counterexample :
  let scan := [(0, "A"%string); (1, "B"%string); (2, "A"%string); (3, "C"%string)] in
  let f := frame_from "A" in
  range_order twice scan /\
  funcBuckets twice !! 0 = Some (Issuer f) /\
  (handleDataFrame twice scan inbound peer f).2 =
    [StreamWrite (StreamID 12) (Encode (FData f))] /\
  forward_to_stage twice (0 + 1) f =
    [StreamWrite (StreamID 11) (Encode (FData f))] /\
  (handleDataFrame twice scan inbound peer f).2 <>
    forward_to_stage twice (0 + 1) f.
Proof.
  cbv zeta. split; [unfold range_order; compute_done|].
  split; [reflexivity|]. split; [reflexivity|]. split; [reflexivity|].
  discriminate.
Qed.

(** No order of the visit rescues the claim on [twice]: the frame is written
    once, so it cannot both reach stage 1 and stage 3. *)
Lemma repeated_token_any_order (scan : list (Z * string)) :
  exists i, funcBuckets twice !! i = Some "A"%string /\
    (handleDataFrame twice scan inbound peer (frame_from "A")).2 <>
      forward_to_stage twice (i + 1) (frame_from "A").
Proof.
  remember (handleDataFrame twice scan inbound peer (frame_from "A")).2 as w.
  destruct w as [|[[id] bytes| |] l];
    try (exists 0; split; [reflexivity|discriminate]).
  destruct (decide (id = 11)) as [->|Hid].
  - exists 2. split; [reflexivity|]. intros Heq. vm_compute in Heq. congruence.
  - exists 0. split; [reflexivity|]. intros Heq. vm_compute in Heq. congruence.
Qed.

(** A source outside the workflow: its frame goes to stage 0. *)
Lemma handleDataFrame_unmatched_issuer_first_stage_witness :
  (handleDataFrame pipeline [(1, "B"%string); (0, "A"%string)] inbound peer
     (frame_from "SRC")).2 =
    forward_to_stage pipeline 0 (frame_from "SRC").
Proof.
  apply handleDataFrame_unmatched_issuer_first_stage.
  - unfold range_order. compute_done.
  - intros i Hi. apply pipeline_stage in Hi as [[_ Hk]|[_ Hk]]; discriminate Hk.
  - left. exists "A"%string. split; [reflexivity|discriminate].
Defined.

Example scenario_from_SRC :
  (handleDataFrame pipeline [(1, "B"%string); (0, "A"%string)] inbound peer
     (frame_from "SRC")).2 =
    [StreamWrite (StreamID 10) (Encode (FData (frame_from "SRC")))].
Proof. reflexivity. Qed.

(** A frame from the last stage is dropped and counted all the same. *)
Lemma handleDataFrame_counts_every_frame_witness :
  let s' := (handleDataFrame pipeline [(1, "B"%string); (0, "A"%string)]
               inbound peer (frame_from "B")).1 in
  StatsCounter s' = StatsCounter pipeline + 1 /\
  funcs s' = funcs pipeline /\ funcBuckets s' = funcBuckets pipeline.
Proof. apply handleDataFrame_counts_every_frame. compute_done. Defined.

(** Position [-1] is the one stage whose successor is zero, the value [j]
    also has when no stage matched; the branch taken for zero does not test
    the token for emptiness. With stage 0 unset and a function registered
    under the empty name, a frame from stage [-1] is written to that
    function's stream, where the rule drops it. *)
Example stage_before_zero :
  let f := frame_from "A" in
  range_order before_zero [(-1, "A"%string)] /\
  (handleDataFrame before_zero [(-1, "A"%string)] inbound peer f).2 =
    [StreamWrite (StreamID 9) (Encode (FData f))] /\
  forward_to_stage before_zero (-1 + 1) f = [].
Proof.
  cbv zeta. split; [unfold range_order; compute_done|]. split; reflexivity.
Qed.

End RoutingRuns.

(** ** The Function Registry and Handshake frames *)

Section HandshakeClaims.
Context `{ConnTypes}.

Lemma conn_types_ne :
  ConnTypeStreamFunction <> ConnTypeSource /\
  ConnTypeUpstreamZipper <> ConnTypeSource /\
  ConnTypeUpstreamZipper <> ConnTypeStreamFunction.
Proof.
  pose proof conn_types_distinct as Hnd.
  apply NoDup_cons in Hnd as [H1 Hnd]. apply NoDup_cons in Hnd as [H2 _].
  apply not_elem_of_cons in H1 as [H1 H1'].
  apply not_elem_of_cons in H1' as [H1' _].
  apply not_elem_of_cons in H2 as [H2 _].
  repeat split; congruence.
Qed.

(** A StreamFunction Handshake stores the stream under the frame's name. *)
Lemma handleHandShakeFrame_stream_function (s : Server) (stream : Stream)
    (session : Session) (f : HandshakeFrame) :
  ClientType f = ConnTypeStreamFunction ->
  handleHandShakeFrame s stream session f =
    set_funcs s (ConcurrentMap.Set_ (funcs s) (Name f) stream).
Proof.
  intros Hct. unfold handleHandShakeFrame. destruct conn_types_ne as (? & _).
  cbv zeta. rewrite Hct.
  rewrite decide_False by assumption.
  rewrite decide_True by reflexivity. reflexivity.
Qed.

(** C5. A Handshake of client type StreamFunction puts [(name, stream)] in
    the registry: a lookup by that name then returns the stream, the other
    names keep their entries, and a later StreamFunction Handshake with the
    same name replaces the handle. A Handshake of client type Source or
    UpstreamZipper leaves the server, and so the registry, as it was. *)
Theorem handleHandShakeFrame_registry (s : Server) (stream : Stream)
    (session : Session) (f : HandshakeFrame) :
  (ClientType f = ConnTypeStreamFunction ->
   let s1 := handleHandShakeFrame s stream session f in
   ConcurrentMap.Get (funcs s1) (Name f) = Some stream /\
   (forall name, name <> Name f ->
      ConcurrentMap.Get (funcs s1) name = ConcurrentMap.Get (funcs s) name) /\
   (forall (stream' : Stream) (session' : Session) (f' : HandshakeFrame),
      ClientType f' = ConnTypeStreamFunction ->
      Name f' = Name f ->
      ConcurrentMap.Get
        (funcs (handleHandShakeFrame s1 stream' session' f')) (Name f) =
        Some stream')) /\
  (ClientType f = ConnTypeSource \/ ClientType f = ConnTypeUpstreamZipper ->
   handleHandShakeFrame s stream session f = s).
Proof.
  split.
  - intros Hct s1. subst s1.
    rewrite handleHandShakeFrame_stream_function by exact Hct.
    unfold ConcurrentMap.Get, ConcurrentMap.Set_. cbn [funcs set_funcs].
    split; [apply lookup_insert_eq|]. split.
    + intros name Hne. apply lookup_insert_ne. congruence.
    + intros stream' session' f' Hct' Hname.
      rewrite handleHandShakeFrame_stream_function by exact Hct'.
      cbn [funcs set_funcs]. rewrite Hname. apply lookup_insert_eq.
  - destruct conn_types_ne as (? & ? & ?).
    intros [Hct|Hct]; unfold handleHandShakeFrame; cbv zeta; rewrite Hct.
    + rewrite decide_True by reflexivity. reflexivity.
    + repeat case_decide; congruence.
Qed.

End HandshakeClaims.

Section HandshakeRuns.
Import Sample.

(** Function [A] reconnects on stream 20; a source then says hello. *)
Lemma handleHandShakeFrame_registry_witness :
  let hello := {| Name := "A"; ClientType := 0x5D |} in
  let source := {| Name := "SRC"; ClientType := 0x5F |} in
  let s1 := handleHandShakeFrame pipeline (StreamID 20) peer hello in
  ConcurrentMap.Get (funcs s1) "A" = Some (StreamID 20) /\
  ConcurrentMap.Get (funcs s1) "B" = Some (StreamID 11) /\
  ConcurrentMap.Get
    (funcs (handleHandShakeFrame s1 (StreamID 21) peer hello)) "A" =
    Some (StreamID 21) /\
  handleHandShakeFrame s1 (StreamID 22) peer source = s1.
Proof.
  intros hello source s1.
  destruct (handleHandShakeFrame_registry pipeline (StreamID 20) peer hello)
    as [Hsfn _].
  destruct (Hsfn eq_refl) as (Hget & Hother & Hagain).
  destruct (handleHandShakeFrame_registry s1 (StreamID 22) peer source)
    as [_ Hsrc].
  split; [exact Hget|]. split.
  - subst s1. rewrite (Hother "B"%string) by discriminate. reflexivity.
  - split; [exact (Hagain (StreamID 21) peer hello eq_refl eq_refl)|].
    apply Hsrc. left. reflexivity.
Defined.

End HandshakeRuns.

(** ** The stage table *)

Section WorkflowFacts.

Lemma AddWorkflow_funcBuckets (s : Server) (wfs : list Workflow) :
  funcBuckets (AddWorkflow s wfs).1 = fold_left add_stage wfs (funcBuckets s).
Proof.
  unfold AddWorkflow. cbn [fst]. revert s.
  induction wfs as [|wf wfs IH]; intros s; [reflexivity|].
  cbn [fold_left]. rewrite IH. reflexivity.
Qed.

(** Only the stage table is touched. *)
Lemma AddWorkflow_frame (s : Server) (wfs : list Workflow) :
  funcs (AddWorkflow s wfs).1 = funcs s /\
  counterOfDataFrame (AddWorkflow s wfs).1 = counterOfDataFrame s.
Proof.
  unfold AddWorkflow. cbn [fst]. revert s.
  induction wfs as [|wf wfs IH]; intros s; [split; reflexivity|].
  cbn [fold_left]. destruct (IH (set_funcBuckets s (<[Seq wf := Token wf]> (funcBuckets s))))
    as [-> ->]. split; reflexivity.
Qed.

(** What stage [k] holds after the fold: the token of the last supplied pair
    with sequence [k], or what it held before when no pair has it. *)
Lemma fold_add_stage_lookup (wfs : list Workflow) (m : gmap Z string) (k : Z) :
  fold_left add_stage wfs m !! k =
    match last (filter (fun wf => Seq wf = k) wfs) with
    | Some wf => Some (Token wf)
    | None => m !! k
    end.
Proof.
  induction wfs as [|wf wfs IH] using rev_ind; [reflexivity|].
  rewrite fold_left_app. cbn [fold_left]. unfold add_stage at 1.
  rewrite filter_app, filter_cons, filter_nil.
  case_decide as Hk.
  - rewrite last_snoc, Hk. apply lookup_insert_eq.
  - rewrite app_nil_r, lookup_insert_ne by exact Hk. exact IH.
Qed.

(** Two pairs with distinct sequences may be supplied in either order. *)
Lemma add_stage_comm (m : gmap Z string) (a b : Workflow) :
  Seq a <> Seq b ->
  add_stage (add_stage m a) b = add_stage (add_stage m b) a.
Proof. intros Hne. unfold add_stage. apply insert_insert_ne. congruence. Qed.

Lemma fold_add_stage_perm (wfs wfs' : list Workflow) :
  wfs ≡ₚ wfs' ->
  NoDup (Seq <$> wfs) ->
  forall m, fold_left add_stage wfs m = fold_left add_stage wfs' m.
Proof.
  induction 1 as [|x l l' Hperm IH|x y l|l l' l'' Hperm IH Hperm' IH'];
    intros Hnd m.
  - reflexivity.
  - cbn [fold_left]. apply IH. apply NoDup_cons in Hnd as [_ Hnd]. exact Hnd.
  - cbn [fold_left]. rewrite add_stage_comm; [reflexivity|].
    cbn in Hnd. apply NoDup_cons in Hnd as [Hy _].
    apply not_elem_of_cons in Hy as [Hy _]. congruence.
  - rewrite IH by exact Hnd. apply IH'.
    rewrite <- Hperm. exact Hnd.
Qed.

(** C7. [AddWorkflow] returns no error. Afterwards every sequence number
    holds the token of the last supplied pair that carries it, so a later
    pair overwrites an earlier one with the same sequence, and a sequence no
    pair carries keeps what it held. When the sequences of the supplied pairs
    are pairwise distinct, any reordering of the pairs yields the same
    server. *)
Theorem AddWorkflow_table (s : Server) (wfs : list Workflow) :
  (AddWorkflow s wfs).2 = None /\
  (forall k,
     funcBuckets (AddWorkflow s wfs).1 !! k =
       match last (filter (fun wf => Seq wf = k) wfs) with
       | Some wf => Some (Token wf)
       | None => funcBuckets s !! k
       end) /\
  (forall wfs', wfs ≡ₚ wfs' -> NoDup (Seq <$> wfs) ->
     AddWorkflow s wfs' = AddWorkflow s wfs).
Proof.
  split; [reflexivity|]. split.
  - intros k. rewrite AddWorkflow_funcBuckets. apply fold_add_stage_lookup.
  - intros wfs' Hperm Hnd.
    pose proof (AddWorkflow_funcBuckets s wfs) as Hb.
    pose proof (AddWorkflow_funcBuckets s wfs') as Hb'.
    rewrite (fold_add_stage_perm wfs wfs' Hperm Hnd) in Hb.
    pose proof (AddWorkflow_frame s wfs) as [Hf Hc].
    pose proof (AddWorkflow_frame s wfs') as [Hf' Hc'].
    assert (Hst : forall wfs, stream (AddWorkflow s wfs).1 = stream s /\
                              state (AddWorkflow s wfs).1 = state s).
    { clear. intros wfs. unfold AddWorkflow. cbn [fst]. revert s.
      induction wfs as [|wf wfs IH]; intros s; [split; reflexivity|].
      cbn [fold_left].
      destruct (IH (set_funcBuckets s (<[Seq wf := Token wf]> (funcBuckets s))))
        as [-> ->]. split; reflexivity. }
    destruct (Hst wfs) as [Hs1 Hs2], (Hst wfs') as [Hs1' Hs2'].
    destruct (AddWorkflow s wfs) as [[a1 a2 a3 a4 a5] e] eqn:E.
    destruct (AddWorkflow s wfs') as [[b1 b2 b3 b4 b5] e'] eqn:E'.
    assert (e = None) by (unfold AddWorkflow in E; congruence).
    assert (e' = None) by (unfold AddWorkflow in E'; congruence).
    cbn in *. congruence.
Qed.

End WorkflowFacts.

Section WorkflowRuns.
Import Sample.

(** The scenario's workflow, supplied out of order and with stage 1 given
    twice: [B] is the later token for stage 1. *)
Example AddWorkflow_out_of_order :
  funcBuckets
    (AddWorkflow NewServer
       [mkWorkflow 1 "X"; mkWorkflow 1 "B"; mkWorkflow 0 "A"]).1 =
    funcBuckets pipeline.
Proof.
  apply map_eq. intros k. rewrite AddWorkflow_funcBuckets.
  cbn [fold_left NewServer funcBuckets pipeline]. unfold add_stage. cbn [Seq Token].
  rewrite insert_insert_eq. reflexivity.
Qed.

Lemma AddWorkflow_table_witness :
  AddWorkflow NewServer [mkWorkflow 0 "A"; mkWorkflow 1 "B"] =
  AddWorkflow NewServer [mkWorkflow 1 "B"; mkWorkflow 0 "A"].
Proof.
  destruct (AddWorkflow_table NewServer [mkWorkflow 1 "B"; mkWorkflow 0 "A"])
    as (_ & _ & Hperm).
  apply Hperm; compute_done.
Defined.

End WorkflowRuns.

(** ** The session loop *)

Section SessionLoop.
Context `{FramePkg} `{ConnTypes}.

(** The frame tags are pairwise distinct, as their case constants are. *)
Lemma frame_tags_NoDup :
  NoDup [TagOfHandshakeFrame; TagOfDataFrame; TagOfPingFrame;
         TagOfPongFrame; TagOfAcceptedFrame; TagOfRejectedFrame].
Proof.
  apply (NoDup_fmap_1 (Z.lor 0x80)). exact case_constants_distinct.
Qed.

(** Closes a goal in which two distinct frame tags are assumed equal. *)
Ltac tag_conflict :=
  exfalso; pose proof frame_tags_NoDup as Hnd;
  repeat match type of Hnd with
         | NoDup (_ :: _) =>
             let Hx := fresh "Hx" in apply NoDup_cons in Hnd as [Hx Hnd]
         end;
  set_solver.

Lemma dispatch_handshake (s : Server) (stream : Stream) (session : Session)
    (scan : list (Z * string)) (h : HandshakeFrame) :
  dispatch s stream session scan (FHandshake h) =
    inl (handleHandShakeFrame s stream session h, []).
Proof. unfold dispatch. cbn. rewrite decide_True by reflexivity. reflexivity. Qed.

Lemma dispatch_data (s : Server) (stream : Stream) (session : Session)
    (scan : list (Z * string)) (d : DataFrame) :
  dispatch s stream session scan (FData d) =
    inl (handleDataFrame s scan stream session d).
Proof.
  unfold dispatch. cbn.
  repeat case_decide; first [reflexivity | tag_conflict].
Qed.

(** Frames of the other kinds change nothing and write nothing. *)
Lemma dispatch_other (s : Server) (stream : Stream) (session : Session)
    (scan : list (Z * string)) (f : Frame) :
  (forall h, f <> FHandshake h) -> (forall d, f <> FData d) ->
  dispatch s stream session scan f = inl (s, []).
Proof.
  intros Hh Hd. unfold dispatch, handlePingFrame.
  destruct f as [h|d| | | |]; [destruct (Hh h eq_refl)|destruct (Hd d eq_refl)|..];
    cbn; repeat case_decide; first [reflexivity | tag_conflict].
Qed.

(** The writes of [handleDataFrame]: at most one, of the frame's encoding. *)
Lemma handleDataFrame_writes (s : Server) (scan : list (Z * string))
    (stream : Stream) (session : Session) (d : DataFrame) (e : event) :
  e ∈ (handleDataFrame s scan stream session d).2 ->
  exists target, e = StreamWrite target (Encode (FData d)).
Proof.
  unfold handleDataFrame.
  repeat first [case_decide | destruct (ConcurrentMap.Get _ _) as [target|]];
    cbn [snd]; intros He;
    first [apply elem_of_nil in He; destruct He
          | apply list_elem_of_singleton in He; eauto].
Qed.

(** Dispatching a frame never panics, and all it emits are writes of the
    encoding of a Data frame, the one dispatched. *)
Lemma dispatch_returns (s : Server) (stream : Stream) (session : Session)
    (scan : list (Z * string)) (f : Frame) :
  exists s1 evs,
    dispatch s stream session scan f = inl (s1, evs) /\
    forall e, e ∈ evs ->
      exists d target, f = FData d /\ e = StreamWrite target (Encode f).
Proof.
  destruct f as [h|d|p|p|a|r].
  2:{ rewrite dispatch_data.
      destruct (handleDataFrame s scan stream session d) as [s1 evs] eqn:E.
      exists s1, evs. split; [reflexivity|]. intros e He.
      replace evs with (handleDataFrame s scan stream session d).2 in He
        by (rewrite E; reflexivity).
      apply handleDataFrame_writes in He as [target ->]. eauto. }
  1:{ rewrite dispatch_handshake. eexists _, []. split; [reflexivity|].
      intros e He. apply elem_of_nil in He. destruct He. }
  all: rewrite dispatch_other by discriminate; exists s, [];
    (split; [reflexivity|]); intros e He; apply elem_of_nil in He; destruct He.
Qed.

(** A stream whose reads all deliver frames keeps [handleSession] in its
    loop: it ends up blocked in the next read, having emitted only writes. *)
Lemma handleSession_frames (s : Server) (stream : Stream) (session : Session)
    (reads : list Read) :
  Forall (fun r => exists f, ReadFrame r = Return f) reads ->
  exists s1 evs,
    handleSession s stream session reads = (s1, evs, Blocked) /\
    Forall is_write evs.
Proof.
  revert s. induction reads as [|r reads IH]; intros s Hall.
  - exists s, []. split; [reflexivity|constructor].
  - apply Forall_cons in Hall as [[f Hf] Hall].
    destruct (dispatch_returns s stream session (scan r) f)
      as (s1 & evs & Hd & Hevs).
    destruct (IH s1 Hall) as (s2 & evs2 & Hs & Hw).
    exists s2, (evs ++ evs2). cbn [handleSession]. rewrite Hf, Hd, Hs.
    split; [reflexivity|]. apply Forall_app. split; [|exact Hw].
    apply Forall_forall. intros e He.
    destruct (Hevs e He) as (d & target & _ & ->). exact I.
Qed.

(** [handleSession] resumes after a prefix of reads that left it blocked. *)
Lemma handleSession_app (s s1 : Server) (stream : Stream) (session : Session)
    (pre rest : list Read) (evs : list event) :
  handleSession s stream session pre = (s1, evs, Blocked) ->
  handleSession s stream session (pre ++ rest) =
    let '(s2, evs2, ex) := handleSession s1 stream session rest in
    (s2, evs ++ evs2, ex).
Proof.
  revert s evs. induction pre as [|r pre IH]; intros s evs Hpre.
  - cbn in Hpre. injection Hpre as -> <-. cbn [app].
    destruct (handleSession s1 stream session rest) as [[s2 evs2] ex].
    reflexivity.
  - cbn [app handleSession] in Hpre |- *.
    destruct (ReadFrame r) as [f|err|p]; [|destruct (errors_Is_ErrClosed err)|];
      try discriminate Hpre.
    destruct (dispatch s stream session (scan r) f) as [[s' evs']|p];
      try discriminate Hpre.
    destruct (handleSession s' stream session pre) as [[s'' evs''] ex'] eqn:E.
    injection Hpre as -> <- ->.
    rewrite (IH s' evs'' E).
    destruct (handleSession s1 stream session rest) as [[s2 evs2] ex].
    rewrite app_assoc. reflexivity.
Qed.

Lemma session_closed_writes (session : Session) (evs : list event) :
  Forall is_write evs -> session_closed session evs = false.
Proof.
  induction 1 as [|e evs He _ IH]; [reflexivity|].
  unfold session_closed in *. cbn [existsb]. rewrite IH.
  destruct e; [reflexivity|destruct He..].
Qed.

Lemma session_closed_app (session : Session) (evs evs' : list event) :
  session_closed session (evs ++ evs') =
    session_closed session evs || session_closed session evs'.
Proof. unfold session_closed. apply existsb_app. Qed.

End SessionLoop.

Section SessionClaims.
Context `{FramePkg} `{ConnTypes}.

(** C8. Let the reads of a stream deliver frames and then fail with [err].
    [handleSession] handles the frames, emitting only writes, and returns at
    the failed read. When [err] is [net.ErrClosed] it emits nothing more:
    neither the stream nor the session is closed, and the connection's
    goroutine goes on to accept the streams that follow with the session
    open. For any other error it closes the stream, closes the session with
    code [0xCC] and the error, and the goroutine accepts no further stream:
    it runs the deferred closes and returns, whatever streams were pending. *)
Theorem handleSession_read_error (s : Server) (session : Session)
    (stream : Stream) (deferred : list Stream) (pre post : list Read)
    (r : Read) (err : error) (incoming : list (Stream * list Read)) :
  Forall (fun r => exists f, ReadFrame r = Return f) pre ->
  ReadFrame r = Fail err ->
  exists s1 evs,
    handleSession s stream session pre = (s1, evs, Blocked) /\
    Forall is_write evs /\
    if errors_Is_ErrClosed err then
      handleSession s stream session (pre ++ r :: post) = (s1, evs, Returned) /\
      serveSession s session false deferred
          ((stream, pre ++ r :: post) :: incoming) =
        (let '(s2, evs2, accepted, ex) :=
           serveSession s1 session false (stream :: deferred) incoming in
         (s2, evs ++ evs2, stream :: accepted, ex))
    else
      let closes :=
        [StreamClose stream; SessionCloseWithError session 0xCC err] in
      handleSession s stream session (pre ++ r :: post) =
        (s1, evs ++ closes, Returned) /\
      serveSession s session false deferred
          ((stream, pre ++ r :: post) :: incoming) =
        (s1, (evs ++ closes) ++ map StreamClose (stream :: deferred),
         [stream], Returned).
Proof.
  intros Hpre Hr.
  destruct (handleSession_frames s stream session pre Hpre)
    as (s1 & evs & Hs & Hw).
  exists s1, evs. split; [exact Hs|]. split; [exact Hw|].
  pose proof (handleSession_app s s1 stream session pre (r :: post) evs Hs)
    as Happ.
  cbn [handleSession] in Happ. rewrite Hr in Happ.
  destruct (errors_Is_ErrClosed err) eqn:Hbenign.
  - rewrite app_nil_r in Happ. split; [exact Happ|].
    cbn [serveSession]. rewrite Happ.
    rewrite (session_closed_writes session evs Hw). reflexivity.
  - cbv zeta. split; [exact Happ|].
    cbn [serveSession]. rewrite Happ.
    rewrite session_closed_app. cbn [session_closed existsb].
    rewrite bool_decide_true by reflexivity.
    cbn [orb]. rewrite orb_true_r.
    destruct incoming; reflexivity.
Qed.

(** After a benign close the stream that follows is accepted. *)
Lemma serveSession_accepts_next (s : Server) (session : Session)
    (deferred : list Stream) (stream : Stream) (reads : list Read)
    (incoming : list (Stream * list Read)) :
  exists accepted,
    (serveSession s session false deferred ((stream, reads) :: incoming)).1.2 =
      stream :: accepted.
Proof.
  cbn [serveSession].
  destruct (handleSession s stream session reads) as [[s1 evs] [|p|]];
    [|eexists; reflexivity..].
  destruct (serveSession s1 session _ _ incoming) as [[[s2 evs2] acc] ex].
  eexists. reflexivity.
Qed.

(** Every write of [handleSession] is the encoding of a Data frame that one
    of the reads delivered, as decoded. *)
Lemma handleSession_writes (s : Server) (stream : Stream) (session : Session)
    (reads : list Read) (target : Stream) (bytes : list Z) :
  StreamWrite target bytes ∈ (handleSession s stream session reads).1.2 ->
  exists r d,
    r ∈ reads /\ ReadFrame r = Return (FData d) /\ bytes = Encode (FData d).
Proof.
  revert s. induction reads as [|r reads IH]; intros s Hin.
  - cbn in Hin. apply elem_of_nil in Hin. destruct Hin.
  - cbn [handleSession] in Hin.
    destruct (ReadFrame r) as [f|err|p] eqn:Hr.
    + destruct (dispatch_returns s stream session (scan r) f)
        as (s1 & evs & Hd & Hevs).
      rewrite Hd in Hin.
      destruct (handleSession s1 stream session reads) as [[s2 evs2] ex] eqn:E.
      cbn [fst snd] in Hin. apply elem_of_app in Hin as [Hin|Hin].
      * destruct (Hevs _ Hin) as (d & target' & -> & Heq).
        injection Heq as _ ->.
        exists r, d. split; [left|]. split; [exact Hr|reflexivity].
      * destruct (IH s1) as (r' & d & Hr' & Hd' & Hb).
        { rewrite E. exact Hin. }
        exists r', d. split; [right; exact Hr'|]. split; assumption.
    + destruct (errors_Is_ErrClosed err); cbn [fst snd] in Hin.
      * apply elem_of_nil in Hin. destruct Hin.
      * apply elem_of_cons in Hin as [Hin|Hin]; [discriminate Hin|].
        apply list_elem_of_singleton in Hin. discriminate Hin.
    + cbn in Hin. apply elem_of_nil in Hin. destruct Hin.
Qed.


End SessionClaims.

Section SessionRuns.
Import Sample.

(** A ping, then a read that fails; a second stream is pending. With a
    time-out the stream and the session are closed and the second stream is
    never accepted; with [net.ErrClosed] nothing is closed and the second
    stream is accepted. *)
Lemma handleSession_read_error_witness :
  let ping := mkRead (Ok [0xBC]) [] in
  let failing (e : error) := mkRead (Err e) [] in
  let timeout := errors_New "timeout: no recent network activity" in
  let second := (StreamID 2, @nil Read) in
  serveSession pipeline peer false []
      [(inbound, [ping; failing timeout]); second] =
    (pipeline,
     [StreamClose inbound; SessionCloseWithError peer 0xCC timeout;
      StreamClose inbound],
     [inbound], Returned) /\
  serveSession pipeline peer false []
      [(inbound, [ping; failing net_ErrClosed]); second] =
    (pipeline, [], [inbound; StreamID 2], Blocked).
Proof.
  intros ping failing timeout second.
  assert (Hpre : Forall (fun r => exists f, ReadFrame r = Return f) [ping])
    by (repeat constructor; eexists; reflexivity).
  split.
  - destruct (handleSession_read_error pipeline peer inbound [] [ping] []
                (failing timeout) timeout [second] Hpre eq_refl)
      as (s1 & evs & Hs & _ & _ & Hserve).
    cbn in Hs. injection Hs as <- <-. exact Hserve.
  - destruct (handleSession_read_error pipeline peer inbound [] [ping] []
                (failing net_ErrClosed) net_ErrClosed [second] Hpre eq_refl)
      as (s1 & evs & Hs & _ & _ & Hserve).
    cbn in Hs. injection Hs as <- <-. exact Hserve.
Defined.


End SessionRuns.

Section ReencodingRuns.


End ReencodingRuns.

Section UnsetStageZero.
Context `{FramePkg} `{ConnTypes}.

(** C6, evaluated on the code. On a new server, with no workflow, a function
    says hello as a StreamFunction under the empty name. No stage carries
    the issuer of a Data frame, whatever it is, and stage zero holds no
    token: the routing rule drops the frame. The branch taken for [j = 0]
    does not test the token for emptiness, as the branch for the other
    stages does: it looks the empty string up in the registry and writes the
    frame to that function's stream. *)
Theorem handleDataFrame_unset_stage_zero_writes (fn st : Stream)
    (session : Session) (f : DataFrame) :
  let hello := {| Name := ""; ClientType := ConnTypeStreamFunction |} in
  let s := handleHandShakeFrame NewServer fn session hello in
  range_order s [] /\
  (forall i, funcBuckets s !! i <> Some (Issuer f)) /\
  funcBuckets s !! 0 = None /\
  forward_to_stage s 0 f = [] /\
  (handleDataFrame s [] st session f).2 =
    [StreamWrite fn (Encode (FData f))].
Proof.
  cbv zeta.
  rewrite handleHandShakeFrame_stream_function by reflexivity.
  unfold range_order, forward_to_stage, handleDataFrame, nextBucket, bucket,
    ConcurrentMap.Get, ConcurrentMap.Set_.
  cbn [funcBuckets funcs set_funcs set_counterOfDataFrame NewServer Name
       fold_left].
  rewrite map_to_list_empty, lookup_empty. cbn [default from_option id].
  rewrite decide_True by reflexivity. rewrite lookup_insert_eq.
  repeat split; try reflexivity.
  intros i. rewrite lookup_empty. discriminate.
Qed.

End UnsetStageZero.

(** ** The counter under concurrent connection tasks *)

Module CounterRaceFacts.
Import CounterRace.

(** C3, evaluated on the code. Two connection tasks handle one Data frame
    each. Both load the counter before either stores: both load zero, both
    store one, and after two processed frames [StatsCounter] reads one. *)
Theorem interleaved_increments_lose_a_count :
  exists m,
    run (start NewServer 2) [0; 1; 0; 1]%nat = Some m /\
    processed m = 2%nat /\
    StatsCounter (server m) = 1.
Proof. eexists. repeat split. Qed.

Lemma run_app (m : machine) (a b : list nat) :
  run m (a ++ b) =
    match run m a with
    | Some m' => run m' b
    | None => None
    end.
Proof.
  revert m. induction a as [|tid a IH]; intros m; [reflexivity|].
  cbn [app run]. destruct (step m tid); [apply IH|reflexivity].
Qed.

Lemma set_counterOfDataFrame_twice (s : Server) (c c' : Z) :
  set_counterOfDataFrame (set_counterOfDataFrame s c) c' =
    set_counterOfDataFrame s c'.
Proof. reflexivity. Qed.

Lemma task_at (k : nat) (t : task) (l : list task) :
  (replicate k Counted ++ t :: l) !! k = Some t.
Proof. apply list_lookup_middle. rewrite length_replicate. reflexivity. Qed.

Lemma set_task_at (k : nat) (t t' : task) (l : list task) :
  <[k := t']> (replicate k Counted ++ t :: l) = replicate k Counted ++ t' :: l.
Proof.
  induction k as [|k IH]; [reflexivity|].
  cbn [replicate app]. cbn [insert list_insert]. f_equal. exact IH.
Qed.

(** The state after the first [k] tasks ran one after the other. *)
Lemma run_serial_prefix (s : Server) (k j : nat) :
  GoInt.min_int <= counterOfDataFrame s ->
  counterOfDataFrame s + Z.of_nat k <= GoInt.max_int ->
  run (start s (k + j)) (serial k) =
    Some {| server :=
              set_counterOfDataFrame s (counterOfDataFrame s + Z.of_nat k);
            tasks := replicate k Counted ++ replicate j Ready |}.
Proof.
  intros Hlo. revert j. induction k as [|k IH]; intros j Hhi.
  - cbn [serial run]. unfold start. rewrite Z.add_0_r.
    destruct s; reflexivity.
  - cbn [serial]. rewrite run_app.
    replace (S k + j)%nat with (k + S j)%nat by lia.
    rewrite IH by lia. cbn [run]. unfold step at 1. cbn [tasks server].
    rewrite replicate_S, task_at, set_task_at.
    unfold step. cbn [tasks server].
    rewrite task_at, set_task_at.
    cbn [counterOfDataFrame set_counterOfDataFrame].
    rewrite set_counterOfDataFrame_twice.
    rewrite GoIntFacts.succ_no_overflow by lia.
    rewrite (replicate_S_end k), <- app_assoc. cbn [app].
    replace (counterOfDataFrame s + Z.of_nat k + 1)
      with (counterOfDataFrame s + Z.of_nat (S k)) by lia.
    reflexivity.
Qed.

(** Run one after the other, [n] tasks leave the counter [n] higher. *)
Lemma serial_increments_count (s : Server) (n : nat) :
  GoInt.min_int <= counterOfDataFrame s ->
  counterOfDataFrame s + Z.of_nat n <= GoInt.max_int ->
  exists m,
    run (start s n) (serial n) = Some m /\
    processed m = n /\
    StatsCounter (server m) = StatsCounter s + Z.of_nat n.
Proof.
  intros Hlo Hhi. eexists. split.
  - rewrite <- (Nat.add_0_r n) at 1. apply run_serial_prefix; assumption.
  - cbn [tasks server replicate]. rewrite app_nil_r. split; [|reflexivity].
    unfold processed. cbn [tasks]. clear.
    induction n as [|n IH]; [reflexivity|].
    cbn [replicate]. rewrite filter_cons, decide_True by reflexivity.
    cbn [length]. rewrite IH. reflexivity.
Qed.

End CounterRaceFacts.

(** * Further properties of the code *)

(** ** Frame parsing *)

Section ParseMore.
Context `{FramePkg}.

(** A case constant has the marker bit set. *)
Lemma case_constant_marker (t : Z) : 0 <= t -> 0x80 <= Z.lor 0x80 t.
Proof.
  intros Ht.
  assert (Hnn : 0 <= Z.lor 0x80 t) by (apply Z.lor_nonneg; lia).
  destruct (Z_lt_le_dec (Z.lor 0x80 t) 0x80) as [Hlt|Hge]; [|exact Hge].
  assert (Hbit : Z.testbit (Z.lor 0x80 t) 7 = true)
    by (rewrite Z.lor_spec; reflexivity).
  rewrite (Z.bits_above_log2 (Z.lor 0x80 t) 7) in Hbit; [discriminate|lia|].
  destruct (Z.eq_dec (Z.lor 0x80 t) 0) as [Hz|Hnz].
  - rewrite Hz. cbn. lia.
  - apply Z.log2_lt_pow2; [lia|]. exact Hlt.
Qed.

Lemma tag_nonneg (t : Z) : t ∈ frame_tags -> 0 <= t.
Proof.
  intros Ht. pose proof tags_are_bytes as Hb.
  rewrite Forall_forall in Hb. apply Hb in Ht. lia.
Qed.

(** A first byte without the marker bit is of no frame kind, whatever its
    low bits: [ParseFrame] returns the unknown-frame-type error. *)
Theorem ParseFrame_needs_marker_bit (b : Z) (rest : list Z) :
  0 <= b < 0x80 ->
  ParseFrame (Ok (b :: rest)) = Fail (UnknownFrameType b).
Proof.
  intros Hb. apply ParseFrame_default, Forall_forall. intros t Ht ->.
  pose proof (case_constant_marker t (tag_nonneg t Ht)). lia.
Qed.

(** The frame [ParseFrame] returns is of the kind its first byte selects:
    the byte is the case constant of the frame's own tag. *)
Theorem ParseFrame_returns_selected_kind (buf : list Z) (f : Frame) :
  ParseFrame (Ok buf) = Return f ->
  exists rest, buf = Z.lor 0x80 (Type_ f) :: rest.
Proof.
  destruct buf as [|b rest]; [discriminate|]. cbn [ParseFrame].
  unfold readHandshakeFrame, readDataFrame, as_frame, of_result.
  intros Hp. exists rest.
  repeat case_decide;
    repeat match type of Hp with
           | context [match ?x with Ok _ => _ | Err _ => _ end] =>
               destruct x eqn:?
           end; try discriminate Hp;
    injection Hp as <-; cbn [Type_]; congruence.
Qed.

End ParseMore.

Section ParseMoreRuns.
Import Sample.

(** The Handshake tag sent without the marker bit. *)
Lemma ParseFrame_needs_marker_bit_witness :
  ParseFrame (Ok [0x3D; 0x5D]) = Fail (UnknownFrameType 0x3D).
Proof. apply ParseFrame_needs_marker_bit. lia. Defined.

(** A well-formed Data packet of the sample codec. *)
Lemma ParseFrame_returns_selected_kind_witness :
  exists rest, [0xBF; 7] = Z.lor 0x80 TagOfDataFrame :: rest.
Proof.
  apply (ParseFrame_returns_selected_kind [0xBF; 7]
           (FData {| TransactionID := ""; Issuer := "SRC"; DataTagID := 7;
                     Carriage := [] |})).
  reflexivity.
Defined.

End ParseMoreRuns.

(** ** What serving a connection keeps *)

Section ServingKeeps.
Context `{FramePkg} `{ConnTypes}.

Lemma handleHandShakeFrame_other_type (s : Server) (st : Stream)
    (session : Session) (f : HandshakeFrame) :
  ClientType f <> ConnTypeStreamFunction ->
  handleHandShakeFrame s st session f = s.
Proof.
  intros Hct. unfold handleHandShakeFrame. cbv zeta.
  repeat case_decide; congruence.
Qed.

(** A Handshake changes the server only when its client type is
    StreamFunction: the other known types and every unknown one leave it as
    it was, and in the session loop nothing is closed for it. *)
Theorem handleHandShakeFrame_only_stream_function (s : Server) (st : Stream)
    (session : Session) (scan : list (Z * string)) (f : HandshakeFrame) :
  ClientType f <> ConnTypeStreamFunction ->
  handleHandShakeFrame s st session f = s /\
  dispatch s st session scan (FHandshake f) = inl (s, []).
Proof.
  intros Hct. rewrite dispatch_handshake.
  rewrite handleHandShakeFrame_other_type by exact Hct. split; reflexivity.
Qed.

(** What no handler touches or takes away: the stage table, the [stream]
    and [state] fields, and the names in the registry. *)
Lemma dispatch_keeps (s s1 : Server) (st : Stream) (session : Session)
    (scan : list (Z * string)) (f : Frame) (evs : list event) :
  dispatch s st session scan f = inl (s1, evs) ->
  funcBuckets s1 = funcBuckets s /\
  stream s1 = stream s /\
  state s1 = state s /\
  forall name, is_Some (funcs s !! name) -> is_Some (funcs s1 !! name).
Proof.
  destruct f as [h|d|p|p|a|r].
  - rewrite dispatch_handshake. intros [= <- _].
    unfold handleHandShakeFrame. cbv zeta.
    repeat case_decide; repeat split; auto.
    intros name Hname. cbn [funcs set_funcs]. unfold ConcurrentMap.Set_.
    rewrite lookup_insert. case_decide; [eauto|exact Hname].
  - rewrite dispatch_data. intros [= Hd].
    assert (Hs1 : s1 = (handleDataFrame s scan st session d).1)
      by (rewrite Hd; reflexivity).
    rewrite handleDataFrame_state in Hs1. subst s1. repeat split; auto.
  - rewrite dispatch_other by discriminate. intros [= <- _]. repeat split; auto.
  - rewrite dispatch_other by discriminate. intros [= <- _]. repeat split; auto.
  - rewrite dispatch_other by discriminate. intros [= <- _]. repeat split; auto.
  - rewrite dispatch_other by discriminate. intros [= <- _]. repeat split; auto.
Qed.

Lemma handleSession_keeps (s : Server) (st : Stream) (session : Session)
    (reads : list Read) :
  let s1 := (handleSession s st session reads).1.1 in
  funcBuckets s1 = funcBuckets s /\
  stream s1 = stream s /\
  state s1 = state s /\
  forall name, is_Some (funcs s !! name) -> is_Some (funcs s1 !! name).
Proof.
  revert s. induction reads as [|r reads IH]; intros s; cbv zeta.
  - repeat split; auto.
  - cbn [handleSession].
    destruct (ReadFrame r) as [f|err|p];
      [|destruct (errors_Is_ErrClosed err); repeat split; auto
       |repeat split; auto].
    destruct (dispatch s st session (scan r) f) as [[s1 evs]|p] eqn:Hd;
      [|repeat split; auto].
    destruct (dispatch_keeps _ _ _ _ _ _ _ Hd) as (Hb & Hst & Hstate & Hreg).
    specialize (IH s1). cbv zeta in IH.
    destruct (handleSession s1 st session reads) as [[s2 evs2] ex].
    cbn [fst] in IH |- *. destruct IH as (Hb' & Hst' & Hstate' & Hreg').
    repeat split; try congruence. auto.
Qed.

Lemma serveSession_keeps (s : Server) (session : Session) (closed : bool)
    (deferred : list Stream) (incoming : list (Stream * list Read)) :
  let s1 := (serveSession s session closed deferred incoming).1.1.1 in
  funcBuckets s1 = funcBuckets s /\
  stream s1 = stream s /\
  state s1 = state s /\
  forall name, is_Some (funcs s !! name) -> is_Some (funcs s1 !! name).
Proof.
  revert s closed deferred.
  induction incoming as [|[st reads] incoming IH]; intros s closed deferred;
    cbv zeta.
  - destruct closed; repeat split; auto.
  - cbn [serveSession]. destruct closed; [repeat split; auto|].
    pose proof (handleSession_keeps s st session reads) as Hk.
    cbv zeta in Hk.
    destruct (handleSession s st session reads) as [[s1 evs] ex].
    cbn [fst] in Hk. destruct Hk as (Hb & Hst & Hstate & Hreg).
    destruct ex as [|p|]; [|repeat split; auto..].
    specialize (IH s1 (session_closed session evs) (st :: deferred)).
    cbv zeta in IH.
    destruct (serveSession s1 session _ _ incoming) as [[[s2 evs2] acc] ex2].
    cbn [fst] in IH |- *. destruct IH as (Hb' & Hst' & Hstate' & Hreg').
    repeat split; try congruence. auto.
Qed.

(** Serving a connection, whatever its streams deliver, leaves the stage
    table as [AddWorkflow] built it. *)
Theorem serveSession_keeps_stage_table (s : Server) (session : Session)
    (closed : bool) (deferred : list Stream)
    (incoming : list (Stream * list Read)) :
  funcBuckets (serveSession s session closed deferred incoming).1.1.1 =
    funcBuckets s.
Proof. apply serveSession_keeps. Qed.

(** Serving a connection never takes a name out of the registry: a function
    stays registered after its read loop ended, its stream was closed or its
    session was closed with an error. *)
Theorem serveSession_never_unregisters (s : Server) (session : Session)
    (closed : bool) (deferred : list Stream)
    (incoming : list (Stream * list Read)) (name : string) :
  is_Some (funcs s !! name) ->
  is_Some
    (funcs (serveSession s session closed deferred incoming).1.1.1 !! name).
Proof. apply serveSession_keeps. Qed.

(** Nothing sets the [stream] field: on a server made by [NewServer], given
    any workflow and having served any connection, [Close] closes nothing
    and returns [nil]. *)
Theorem Close_closes_nothing (wfs : list Workflow) (session : Session)
    (incoming : list (Stream * list Read)) (close : Stream -> option error) :
  let s := (AddWorkflow NewServer wfs).1 in
  Close (serveSession s session false [] incoming).1.1.1 close = ([], None).
Proof.
  cbv zeta. unfold Close.
  destruct (serveSession_keeps (AddWorkflow NewServer wfs).1 session false []
              incoming) as (_ & -> & _).
  assert (Hst : forall wfs s, stream (AddWorkflow s wfs).1 = stream s).
  { clear. intros wfs. unfold AddWorkflow. cbn [fst].
    induction wfs as [|wf wfs IH]; intros s; [reflexivity|].
    cbn [fold_left]. rewrite IH. reflexivity. }
  rewrite Hst. reflexivity.
Qed.

(** [handleSession] ends in a crash only when [ParseFrame] panicked on one
    of the reads, and with that panic. *)
Theorem handleSession_crash_is_a_parse_panic (s : Server) (st : Stream)
    (session : Session) (reads : list Read) (p : panic_value) :
  (handleSession s st session reads).2 = Crashed p ->
  exists r, r ∈ reads /\ ReadFrame r = Panic p.
Proof.
  revert s. induction reads as [|r reads IH]; intros s; [discriminate|].
  cbn [handleSession]. destruct (ReadFrame r) as [f|err|p'] eqn:Hr.
  - destruct (dispatch_returns s st session (scan r) f) as (s1 & evs & -> & _).
    specialize (IH s1).
    destruct (handleSession s1 st session reads) as [[s2 evs2] ex].
    cbn [snd] in IH |- *. intros Hex. destruct (IH Hex) as (r' & Hin & Hp).
    exists r'. split; [right; exact Hin|exact Hp].
  - destruct (errors_Is_ErrClosed err); discriminate.
  - intros [= <-]. exists r. split; [left|exact Hr].
Qed.

End ServingKeeps.

(** ** Counting and writing *)

Section CountingFacts.
Context `{FramePkg} `{ConnTypes}.

(** Dispatching a frame moves the counter exactly when it is a Data frame. *)
Lemma dispatch_counter (s s1 : Server) (st : Stream) (session : Session)
    (scan : list (Z * string)) (f : Frame) (evs : list event) :
  dispatch s st session scan f = inl (s1, evs) ->
  counterOfDataFrame s1 =
    if is_data f then GoInt.succ (counterOfDataFrame s)
    else counterOfDataFrame s.
Proof.
  destruct f as [h|d|p|p|a|r]; cbn [is_data].
  - rewrite dispatch_handshake. intros [= <- _].
    unfold handleHandShakeFrame. cbv zeta. repeat case_decide; reflexivity.
  - rewrite dispatch_data. intros [= Hd].
    assert (Hs1 : s1 = (handleDataFrame s scan st session d).1)
      by (rewrite Hd; reflexivity).
    rewrite handleDataFrame_state in Hs1. subst s1. reflexivity.
  - rewrite dispatch_other by discriminate. intros [= <- _]. reflexivity.
  - rewrite dispatch_other by discriminate. intros [= <- _]. reflexivity.
  - rewrite dispatch_other by discriminate. intros [= <- _]. reflexivity.
  - rewrite dispatch_other by discriminate. intros [= <- _]. reflexivity.
Qed.

Lemma data_frames_cons (r : Read) (reads : list Read) :
  data_frames (r :: reads) =
    ((if delivers_data r then 1 else 0) + data_frames reads)%nat.
Proof.
  unfold data_frames. cbn [List.filter].
  destruct (delivers_data r); reflexivity.
Qed.

Lemma handleSession_counter_frames (s : Server) (st : Stream)
    (session : Session) (reads : list Read) :
  Forall (fun r => exists f, ReadFrame r = Return f) reads ->
  GoInt.min_int <= counterOfDataFrame s ->
  counterOfDataFrame s + Z.of_nat (data_frames reads) <= GoInt.max_int ->
  counterOfDataFrame (handleSession s st session reads).1.1 =
    counterOfDataFrame s + Z.of_nat (data_frames reads).
Proof.
  revert s. induction reads as [|r reads IH]; intros s Hall Hlo Hhi.
  - cbn. lia.
  - apply Forall_cons in Hall as [[f Hf] Hall].
    rewrite data_frames_cons in Hhi |- *.
    cbn [handleSession]. unfold delivers_data in Hhi |- *.
    rewrite Hf in Hhi |- *.
    destruct (dispatch_returns s st session (scan r) f) as (s1 & evs & Hd & _).
    rewrite Hd. pose proof (dispatch_counter _ _ _ _ _ _ _ Hd) as Hc.
    specialize (IH s1 Hall).
    destruct (handleSession s1 st session reads) as [[s2 evs2] ex].
    cbn [fst] in IH |- *.
    destruct (is_data f).
    + rewrite GoIntFacts.succ_no_overflow in Hc by lia.
      rewrite IH by lia. lia.
    + rewrite IH by lia. lia.
Qed.

(** The counter counts the Data frames received on a stream: after the
    frames [pre], with the reads ending there or going on with a read that
    fails or panics, [StatsCounter] is higher by the number of Data frames
    among [pre], forwarded or dropped. *)
Theorem handleSession_counts_data_frames (s : Server) (st : Stream)
    (session : Session) (pre rest : list Read) :
  Forall (fun r => exists f, ReadFrame r = Return f) pre ->
  match rest with
  | [] => True
  | r :: _ => forall f, ReadFrame r <> Return f
  end ->
  GoInt.min_int <= StatsCounter s ->
  StatsCounter s + Z.of_nat (data_frames pre) <= GoInt.max_int ->
  StatsCounter (handleSession s st session (pre ++ rest)).1.1 =
    StatsCounter s + Z.of_nat (data_frames pre).
Proof.
  unfold StatsCounter. intros Hpre Hrest Hlo Hhi.
  pose proof (handleSession_counter_frames s st session pre Hpre Hlo Hhi) as Hc.
  destruct (handleSession_frames s st session pre Hpre) as (s1 & evs & Hs & _).
  rewrite (handleSession_app s s1 st session pre rest evs Hs).
  rewrite Hs in Hc. cbn [fst] in Hc.
  destruct rest as [|r post].
  - cbn. exact Hc.
  - cbn [handleSession]. destruct (ReadFrame r) as [f|err|p].
    + destruct (Hrest f eq_refl).
    + destruct (errors_Is_ErrClosed err); exact Hc.
    + exact Hc.
Qed.

(** [handleDataFrame] writes nothing, or writes the frame's encoding once,
    to a stream the registry holds under some name. That name is the token
    a stage of the table holds, with one exception: when the loop ends at
    [j = 0] and stage zero holds no token, the name is the empty string. *)
Theorem handleDataFrame_writes_to_registered (s : Server)
    (scan : list (Z * string)) (st : Stream) (session : Session)
    (d : DataFrame) :
  (handleDataFrame s scan st session d).2 = [] \/
  exists name target,
    funcs s !! name = Some target /\
    (handleDataFrame s scan st session d).2 =
      [StreamWrite target (Encode (FData d))] /\
    ((exists j, funcBuckets s !! j = Some name) \/
     (name = ""%string /\ funcBuckets s !! 0 = None /\
      nextBucket scan (Issuer d) = 0)).
Proof.
  destruct (decide (nextBucket scan (Issuer d) = 0)) as [Hz|Hnz].
  - rewrite (handleDataFrame_first s scan st session d Hz). unfold bucket.
    destruct (funcBuckets s !! 0) as [token|] eqn:Hstage; cbn.
    + destruct (funcs s !! token) as [target|] eqn:Hreg; [|left; reflexivity].
      right. exists token, target. repeat split; eauto.
    + destruct (funcs s !! ""%string) as [target|] eqn:Hreg;
        [|left; reflexivity].
      right. exists ""%string, target. repeat split; auto.
  - rewrite (handleDataFrame_next s scan st session d _ eq_refl Hnz).
    unfold forward_to_stage.
    destruct (funcBuckets s !! _) as [token|] eqn:Hstage; [|left; reflexivity].
    case_decide; [left; reflexivity|].
    destruct (funcs s !! token) as [target|] eqn:Hreg; [|left; reflexivity].
    right. exists token, target. repeat split; eauto.
Qed.

(** With a token at several stages the frame still goes by the rule to the
    successor of one of the issuer's stages: for every order of the visit
    there is a stage [i] holding the issuer's token with [j = i + 1], and
    when that is not zero the frame is treated as for stage [j]. *)
Theorem handleDataFrame_successor_of_a_match (s : Server)
    (scan : list (Z * string)) (st : Stream) (session : Session)
    (f : DataFrame) :
  range_order s scan ->
  (exists i, funcBuckets s !! i = Some (Issuer f)) ->
  exists i,
    funcBuckets s !! i = Some (Issuer f) /\
    nextBucket scan (Issuer f) = GoInt.succ i /\
    (GoInt.succ i <> 0 ->
     (handleDataFrame s scan st session f).2 =
       forward_to_stage s (GoInt.succ i) f).
Proof.
  intros Hscan [i0 Hi0].
  pose proof (nextBucket_last_match scan (Issuer f)) as Hj.
  destruct (last _) as [[i k]|] eqn:Hlast.
  - apply last_Some_elem_of, list_elem_of_filter in Hlast as [Hk Hin].
    cbn in Hk, Hj. subst k.
    exists i. split; [apply (range_order_elem s scan); assumption|].
    split; [exact Hj|]. intros Hnz.
    apply handleDataFrame_next; assumption.
  - apply last_None in Hlast.
    assert (Hin : (i0, Issuer f) ∈ filter (fun e => e.2 = Issuer f) scan).
    { apply list_elem_of_filter. split; [reflexivity|].
      apply (range_order_elem s scan); assumption. }
    rewrite Hlast in Hin. apply elem_of_nil in Hin. destruct Hin.
Qed.

End CountingFacts.

(** ** The connection goroutine *)

Section GoroutineFacts.
Context `{FramePkg} `{ConnTypes}.

(** When the goroutine ends, by leaving its loop or by a panic, the last
    thing it does is run the deferred closes: every stream it accepted is
    closed, the one accepted last first, then those deferred before. *)
Theorem serveSession_runs_deferred_closes (s : Server) (session : Session)
    (closed : bool) (deferred : list Stream)
    (incoming : list (Stream * list Read)) :
  let r := serveSession s session closed deferred incoming in
  r.2 <> Blocked ->
  exists evs,
    r.1.1.2 = evs ++ map StreamClose (rev r.1.2 ++ deferred).
Proof.
  revert s closed deferred.
  induction incoming as [|[st reads] incoming IH]; intros s closed deferred;
    cbv zeta.
  - destruct closed; intros _; exists []; reflexivity.
  - cbn [serveSession]. destruct closed; [intros _; exists []; reflexivity|].
    destruct (handleSession s st session reads) as [[s1 evs] [|p|]].
    + specialize (IH s1 (session_closed session evs) (st :: deferred)).
      cbv zeta in IH.
      destruct (serveSession s1 session _ _ incoming)
        as [[[s2 evs2] acc] ex2].
      cbn [fst snd] in IH |- *. intros Hex. destruct (IH Hex) as [evs0 ->].
      exists (evs ++ evs0). cbn [rev]. rewrite <- !app_assoc. reflexivity.
    + intros _. exists evs. reflexivity.
    + intros Hex. destruct (Hex eq_refl).
Qed.

End GoroutineFacts.

(** ** Listening *)

Section ListenFacts.

Lemma acceptLoop_returned (accepts : list (result Session))
    (started : list Session) (finalErr : option error) :
  acceptLoop accepts = (started, ListenReturned finalErr) ->
  exists err post,
    finalErr = Some err /\ accepts = (Ok <$> started) ++ Err err :: post.
Proof.
  revert started. induction accepts as [|[session|err] accepts IH];
    intros started; cbn [acceptLoop].
  - discriminate.
  - destruct (acceptLoop accepts) as [started' ex]. intros [= <- ->].
    destruct (IH started' eq_refl) as (err & post & -> & ->).
    exists err, post. split; reflexivity.
  - intros [= <- <-]. exists err, accepts. split; reflexivity.
Qed.

(** [ListenAndServe] returns only with an error, never [nil]: the error of
    [quic.ListenAddr], the server untouched and no goroutine started; or the
    error of the first [listener.Accept] that failed, the state set to
    connected and one goroutine started for each connection accepted before,
    in order, none for what came after. *)
Theorem ListenAndServe_returns_first_failure (ConnStateConnected : string)
    (s s1 : Server) (listen : option error) (accepts : list (result Session))
    (started : list Session) (finalErr : option error) :
  ListenAndServe ConnStateConnected s listen accepts =
    (s1, started, ListenReturned finalErr) ->
  exists err,
    finalErr = Some err /\
    ((listen = Some err /\ s1 = s /\ started = []) \/
     (listen = None /\ s1 = set_state s ConnStateConnected /\
      exists post, accepts = (Ok <$> started) ++ Err err :: post)).
Proof.
  unfold ListenAndServe. destruct listen as [err|].
  - intros [= <- <- <-]. exists err. split; [reflexivity|]. left. auto.
  - destruct (acceptLoop accepts) as [started' ex] eqn:E.
    intros [= <- <- ->].
    destruct (acceptLoop_returned _ _ _ E) as (err & post & -> & ->).
    exists err. split; [reflexivity|]. right. eauto.
Qed.

End ListenFacts.

(** ** Building the stage table, then routing *)

Section WorkflowMore.

(** In a list whose images under [f] are pairwise distinct, an element is
    determined by its image. *)
Lemma NoDup_fmap_elem_inj {A B} (f : A -> B) (l : list A) (x y : A) :
  NoDup (f <$> l) -> x ∈ l -> y ∈ l -> f x = f y -> x = y.
Proof.
  induction l as [|a l IH]; intros Hnd Hx Hy Hf.
  - apply elem_of_nil in Hx. destruct Hx.
  - rewrite fmap_cons in Hnd.
    apply NoDup_cons in Hnd as [Ha Hnd].
    apply elem_of_cons in Hx as [->|Hx]; apply elem_of_cons in Hy as [->|Hy].
    + reflexivity.
    + destruct Ha. rewrite Hf. apply list_elem_of_fmap_2, Hy.
    + destruct Ha. rewrite <- Hf. apply list_elem_of_fmap_2, Hx.
    + apply IH; assumption.
Qed.

Lemma AddWorkflow_fold (s : Server) (wfs : list Workflow) :
  (AddWorkflow s wfs).1 =
    set_funcBuckets s (fold_left add_stage wfs (funcBuckets s)).
Proof.
  unfold AddWorkflow. cbn [fst]. revert s.
  induction wfs as [|wf wfs IH]; intros s; [destruct s; reflexivity|].
  cbn [fold_left]. rewrite IH. reflexivity.
Qed.

Lemma AddWorkflow_app (s : Server) (wfs wfs' : list Workflow) :
  AddWorkflow (AddWorkflow s wfs).1 wfs' = AddWorkflow s (wfs ++ wfs').
Proof.
  unfold AddWorkflow. cbn [fst]. rewrite fold_left_app. reflexivity.
Qed.

(** Two calls of [AddWorkflow] amount to one call with the pairs of the
    first followed by those of the second: where both calls give a sequence,
    the token of the second call stands. *)
Theorem AddWorkflow_twice (s : Server) (wfs wfs' : list Workflow) :
  AddWorkflow (AddWorkflow s wfs).1 wfs' = AddWorkflow s (wfs ++ wfs') /\
  forall wf, wf ∈ wfs' -> NoDup (Seq <$> wfs') ->
    funcBuckets (AddWorkflow (AddWorkflow s wfs).1 wfs').1 !! Seq wf =
      Some (Token wf).
Proof.
  split; [apply AddWorkflow_app|]. intros wf Hin Hnd.
  rewrite AddWorkflow_funcBuckets, fold_add_stage_lookup.
  assert (Hf : wf ∈ filter (fun wf' => Seq wf' = Seq wf) wfs')
    by (apply list_elem_of_filter; split; [reflexivity|exact Hin]).
  destruct (last _) as [wf'|] eqn:Hlast.
  - apply last_Some_elem_of, list_elem_of_filter in Hlast as [Hseq Hin'].
    rewrite (NoDup_fmap_elem_inj Seq wfs' wf' wf Hnd Hin' Hin Hseq).
    reflexivity.
  - apply last_None in Hlast. rewrite Hlast in Hf.
    apply elem_of_nil in Hf. destruct Hf.
Qed.

Lemma last_app_same {A} (l : list A) : last (l ++ l) = last l.
Proof.
  destruct l as [|x l] using rev_ind; [reflexivity|].
  rewrite app_assoc, !last_snoc. reflexivity.
Qed.

(** Supplying the same pairs again changes nothing. *)
Theorem AddWorkflow_again (s : Server) (wfs : list Workflow) :
  AddWorkflow (AddWorkflow s wfs).1 wfs = AddWorkflow s wfs.
Proof.
  rewrite AddWorkflow_app.
  rewrite (surjective_pairing (AddWorkflow s (wfs ++ wfs))).
  rewrite (surjective_pairing (AddWorkflow s wfs)).
  f_equal. rewrite !AddWorkflow_fold. f_equal. apply map_eq. intros k.
  rewrite !fold_add_stage_lookup, filter_app, last_app_same. reflexivity.
Qed.

(** The stages that hold a token after [AddWorkflow]: those that held one
    before and the sequences supplied. *)
Theorem AddWorkflow_stages (s : Server) (wfs : list Workflow) (k : Z) :
  is_Some (funcBuckets (AddWorkflow s wfs).1 !! k) <->
  is_Some (funcBuckets s !! k) \/ k ∈ Seq <$> wfs.
Proof.
  rewrite AddWorkflow_funcBuckets. generalize (funcBuckets s) as m.
  induction wfs as [|wf wfs IH]; intros m.
  - cbn. split; [auto|]. intros [Hm|Hin]; [exact Hm|].
    apply elem_of_nil in Hin. destruct Hin.
  - cbn [fold_left]. rewrite IH. unfold add_stage.
    rewrite lookup_insert_is_Some, fmap_cons, elem_of_cons.
    destruct (decide (Seq wf = k)); intuition congruence.
Qed.

(** The table built from pairs with pairwise distinct sequences on a new
    server holds exactly the supplied pairs. *)
Lemma AddWorkflow_new_lookup (wfs : list Workflow) (i : Z) (k : string) :
  NoDup (Seq <$> wfs) ->
  funcBuckets (AddWorkflow NewServer wfs).1 !! i = Some k <->
  mkWorkflow i k ∈ wfs.
Proof.
  intros Hnd. rewrite AddWorkflow_funcBuckets, fold_add_stage_lookup.
  cbn [funcBuckets NewServer]. rewrite lookup_empty. split.
  - destruct (last _) as [wf|] eqn:Hlast; [|discriminate].
    apply last_Some_elem_of, list_elem_of_filter in Hlast as [Hseq Hin].
    intros [= <-]. subst i. destruct wf; exact Hin.
  - intros Hin.
    assert (Hf : mkWorkflow i k ∈ filter (fun wf => Seq wf = i) wfs)
      by (apply list_elem_of_filter; split; [reflexivity|exact Hin]).
    destruct (last _) as [wf|] eqn:Hlast.
    + apply last_Some_elem_of, list_elem_of_filter in Hlast as [Hseq Hin'].
      rewrite (NoDup_fmap_elem_inj Seq wfs wf (mkWorkflow i k) Hnd Hin' Hin Hseq).
      reflexivity.
    + apply last_None in Hlast. rewrite Hlast in Hf.
      apply elem_of_nil in Hf. destruct Hf.
Qed.

End WorkflowMore.

Section PipelineFacts.
Context `{FramePkg} `{ConnTypes}.

(** A pipeline set up by [AddWorkflow] on a new server from pairs with
    pairwise distinct sequences and pairwise distinct tokens routes by
    position: a Data frame issued by the token supplied with sequence [i]
    (from zero on) is treated by the rule for stage [i + 1], for every order
    of the visit. *)
Theorem pipeline_routes_by_position (wfs : list Workflow) (wf : Workflow)
    (scan : list (Z * string)) (st : Stream) (session : Session)
    (f : DataFrame) :
  NoDup (Seq <$> wfs) ->
  NoDup (Token <$> wfs) ->
  wf ∈ wfs ->
  Issuer f = Token wf ->
  0 <= Seq wf < GoInt.max_int ->
  let s := (AddWorkflow NewServer wfs).1 in
  range_order s scan ->
  (handleDataFrame s scan st session f).2 = forward_to_stage s (Seq wf + 1) f.
Proof.
  intros Hseqs Htokens Hwf Hissuer Hrange s Hscan.
  assert (Hj : nextBucket scan (Issuer f) = GoInt.succ (Seq wf)).
  { apply nextBucket_unique.
    - apply (range_order_elem s scan _ _ Hscan). subst s.
      apply AddWorkflow_new_lookup; [exact Hseqs|].
      rewrite Hissuer. destruct wf; exact Hwf.
    - intros [i k] Hin Hk. cbn in Hk |- *. subst k.
      apply (range_order_elem s scan _ _ Hscan) in Hin. subst s.
      apply AddWorkflow_new_lookup in Hin; [|exact Hseqs].
      assert (Heq : mkWorkflow i (Issuer f) = wf)
        by (apply (NoDup_fmap_elem_inj Token wfs); auto).
      rewrite <- Heq. reflexivity. }
  rewrite (handleDataFrame_next s scan st session f _ Hj)
    by (apply GoIntFacts.succ_nonzero; exact Hrange).
  rewrite GoIntFacts.succ_no_overflow; [reflexivity|].
  unfold GoInt.min_int, GoInt.bits.
  change (2 ^ (64 - 1)) with 9223372036854775808. lia.
Qed.

(** Registration and routing compose: once a function said hello as a
    StreamFunction under the non-empty token of stage [j], a Data frame the
    loop sends to stage [j] (not zero) is written, encoded, to the stream of
    that Handshake, whatever stream held the name before. *)
Theorem registered_function_receives (s : Server) (fn : Stream)
    (session session' : Session) (h : HandshakeFrame)
    (scan : list (Z * string)) (st : Stream) (f : DataFrame) (j : Z) :
  ClientType h = ConnTypeStreamFunction ->
  nextBucket scan (Issuer f) = j ->
  j <> 0 ->
  funcBuckets s !! j = Some (Name h) ->
  Name h <> ""%string ->
  (handleDataFrame (handleHandShakeFrame s fn session h) scan st session' f).2 =
    [StreamWrite fn (Encode (FData f))].
Proof.
  intros Hct Hj Hnz Hstage Hname.
  rewrite (handleDataFrame_next _ scan st session' f j Hj Hnz).
  rewrite handleHandShakeFrame_stream_function by exact Hct.
  unfold forward_to_stage. cbn [funcBuckets funcs set_funcs].
  rewrite Hstage, decide_False by exact Hname.
  unfold ConcurrentMap.Set_. rewrite lookup_insert_eq. reflexivity.
Qed.

End PipelineFacts.

(** ** The counter under every interleaving *)

Module CounterRaceBounds.
Import CounterRace.

Abbreviation counted l := (length (filter (fun t : task => t = Counted) l)).

Lemma counted_app (l1 l2 : list task) :
  counted (l1 ++ l2) = (counted l1 + counted l2)%nat.
Proof. rewrite filter_app, length_app. reflexivity. Qed.

Lemma counted_cons (t : task) (l : list task) :
  counted (t :: l) = ((if decide (t = Counted) then 1 else 0) + counted l)%nat.
Proof. rewrite filter_cons. case_decide; reflexivity. Qed.

Lemma counted_le_length (l : list task) : (counted l <= length l)%nat.
Proof.
  induction l as [|t l IH]; [reflexivity|].
  rewrite counted_cons. cbn [length]. case_decide; lia.
Qed.

Lemma insert_middle (l1 l2 : list task) (t t' : task) :
  <[length l1 := t']> (l1 ++ t :: l2) = l1 ++ t' :: l2.
Proof.
  rewrite <- (Nat.add_0_r (length l1)), insert_app_r. reflexivity.
Qed.

Lemma step_length (m m' : machine) (tid : nat) :
  step m tid = Some m' -> length (tasks m') = length (tasks m).
Proof.
  unfold step. destruct (tasks m !! tid) as [[|v|]|]; intros [= <-];
    cbn [tasks]; apply length_insert.
Qed.

Lemma step_bounds (c0 : Z) (m m' : machine) (tid : nat) :
  GoInt.min_int <= c0 ->
  c0 + Z.of_nat (length (tasks m)) <= GoInt.max_int ->
  race_bounds c0 m ->
  step m tid = Some m' ->
  race_bounds c0 m'.
Proof.
  intros Hlo Hhi (Hc & Hpos & Hall). unfold step.
  destruct (tasks m !! tid) as [t|] eqn:Ht; [|discriminate].
  apply list_elem_of_split_length in Ht as (l1 & l2 & Hl & ->).
  unfold race_bounds, processed in *. cbv zeta in *.
  rewrite Hl in *. rewrite counted_app, counted_cons in *.
  rewrite length_app in Hhi. cbn [length] in Hhi.
  pose proof (counted_le_length l1). pose proof (counted_le_length l2).
  apply Forall_app in Hall as [Hall1 Hall2].
  apply Forall_cons in Hall2 as [Ht Hall2].
  destruct t as [|v|]; intros [= <-]; cbn [tasks server];
    rewrite insert_middle, counted_app, counted_cons;
    rewrite ?decide_False in * by discriminate;
    rewrite ?decide_True in * by reflexivity.
  - split; [exact Hc|]. split; [exact Hpos|].
    apply Forall_app. split; [exact Hall1|].
    apply Forall_cons. split; [exact Hc|exact Hall2].
  - cbn [counterOfDataFrame set_counterOfDataFrame].
    rewrite GoIntFacts.succ_no_overflow by lia.
    split; [lia|]. split; [lia|].
    apply Forall_app. split; [|apply Forall_cons; split; [exact I|]].
    + eapply Forall_impl; [exact Hall1|]. intros [|v'|]; cbn; lia.
    + eapply Forall_impl; [exact Hall2|]. intros [|v'|]; cbn; lia.
Qed.

Lemma run_bounds (c0 : Z) (schedule : list nat) (m m' : machine) :
  GoInt.min_int <= c0 ->
  c0 + Z.of_nat (length (tasks m)) <= GoInt.max_int ->
  race_bounds c0 m ->
  run m schedule = Some m' ->
  race_bounds c0 m' /\ length (tasks m') = length (tasks m).
Proof.
  intros Hlo. revert m. induction schedule as [|tid schedule IH];
    intros m Hhi Hb; cbn [run].
  - intros [= <-]. split; [exact Hb|reflexivity].
  - destruct (step m tid) as [m1|] eqn:Hs; [|discriminate]. intros Hrun.
    pose proof (step_length _ _ _ Hs) as Hlen.
    destruct (IH m1) as [Hb' Hlen']; try assumption.
    + rewrite Hlen. exact Hhi.
    + exact (step_bounds c0 m m1 tid Hlo Hhi Hb Hs).
    + split; [exact Hb'|congruence].
Qed.

Lemma start_bounds (s : Server) (n : nat) :
  race_bounds (counterOfDataFrame s) (start s n).
Proof.
  unfold race_bounds, processed, start. cbn [tasks server].
  assert (Hz : counted (replicate n Ready) = 0%nat).
  { induction n as [|n IH]; [reflexivity|].
    cbn [replicate]. rewrite counted_cons, decide_False by discriminate.
    exact IH. }
  rewrite Hz. cbn. split; [lia|]. split; [lia|].
  clear. induction n; constructor; auto.
Qed.

(** Whatever the interleaving of [n] connection tasks, the counter is never
    ahead of the number of Data frames processed (no frame is counted
    twice), never behind where it started, and above it once a frame was
    processed: the unsynchronized increment can only lose counts. *)
Theorem racing_counter_never_overcounts (s : Server) (n : nat)
    (schedule : list nat) (m : machine) :
  GoInt.min_int <= StatsCounter s ->
  StatsCounter s + Z.of_nat n <= GoInt.max_int ->
  run (start s n) schedule = Some m ->
  (processed m <= n)%nat /\
  StatsCounter s <= StatsCounter (server m) <=
    StatsCounter s + Z.of_nat (processed m) /\
  ((0 < processed m)%nat -> StatsCounter s + 1 <= StatsCounter (server m)).
Proof.
  unfold StatsCounter. intros Hlo Hhi Hrun.
  assert (Hlen : length (tasks (start s n)) = n)
    by (cbn; apply length_replicate).
  destruct (run_bounds (counterOfDataFrame s) schedule (start s n) m Hlo)
    as [(Hc & Hpos & _) Hlen']; [rewrite Hlen; exact Hhi|apply start_bounds
                                |exact Hrun|].
  cbv zeta in Hc, Hpos. split.
  - unfold processed. rewrite <- Hlen, <- Hlen'. apply counted_le_length.
  - split; [exact Hc|]. intros Hp. apply Hpos. lia.
Qed.

(** Both tasks load before either stores: two frames, counter at one. *)
Lemma racing_counter_never_overcounts_witness :
  let m := {| server := set_counterOfDataFrame NewServer 1;
              tasks := [Counted; Counted] |} in
  (processed m <= 2)%nat /\
  StatsCounter NewServer <= StatsCounter (server m) <=
    StatsCounter NewServer + Z.of_nat (processed m) /\
  ((0 < processed m)%nat ->
   StatsCounter NewServer + 1 <= StatsCounter (server m)).
Proof.
  apply (racing_counter_never_overcounts NewServer 2 [0; 1; 0; 1]%nat);
    [compute_done|compute_done|reflexivity].
Defined.

End CounterRaceBounds.

(** ** Frames that change nothing *)

Section QuietFrames.
Context `{FramePkg} `{ConnTypes}.

(** A stream that delivers only Ping, Pong, Accepted and Rejected frames and
    Handshakes of a client type other than StreamFunction leaves the server
    as it was and nothing is written: a Ping gets no reply, an unknown client
    type closes nothing. The loop goes on reading. *)
Theorem handleSession_quiet_frames (s : Server) (st : Stream)
    (session : Session) (reads : list Read) :
  Forall
    (fun r => exists f,
       ReadFrame r = Return f /\
       (forall d, f <> FData d) /\
       (forall h, f = FHandshake h -> ClientType h <> ConnTypeStreamFunction))
    reads ->
  handleSession s st session reads = (s, [], Blocked).
Proof.
  induction 1 as [|r reads (f & Hf & Hnd & Hh) _ IH]; [reflexivity|].
  cbn [handleSession]. rewrite Hf.
  assert (Hd : dispatch s st session (scan r) f = inl (s, [])).
  { destruct f as [h|d|p|p|a|x].
    - rewrite dispatch_handshake.
      rewrite handleHandShakeFrame_other_type by (apply Hh; reflexivity).
      reflexivity.
    - destruct (Hnd d eq_refl).
    - apply dispatch_other; discriminate.
    - apply dispatch_other; discriminate.
    - apply dispatch_other; discriminate.
    - apply dispatch_other; discriminate. }
  rewrite Hd, IH. reflexivity.
Qed.

End QuietFrames.

(** ** Runs on the sample instance *)

Section MoreRuns.
Import Sample.

Lemma handleSession_unknown_kind_witness :
  handleSession pipeline inbound peer [mkRead (Ok [0x81]) []] =
    (pipeline,
     [StreamClose inbound;
      SessionCloseWithError peer 0xCC (UnknownFrameType 0x81)], Returned).
Proof. apply (handleSession_unknown_kind pipeline inbound peer 0x81). compute_done. Defined.

(** A Data frame, a Ping, then a time-out: one frame counted. *)
Lemma handleSession_counts_data_frames_witness :
  let pre := [mkRead (Ok [0xBF; 7]) [(1, "B"%string); (0, "A"%string)];
              mkRead (Ok [0xBC]) []] in
  StatsCounter
    (handleSession pipeline inbound peer (pre ++ [mkRead (Err timeout) []])).1.1 =
    StatsCounter pipeline + Z.of_nat (data_frames pre).
Proof.
  cbv zeta. apply handleSession_counts_data_frames.
  - repeat constructor; eexists; reflexivity.
  - intros f. discriminate.
  - compute_done.
  - compute_done.
Defined.

Lemma serveSession_never_unregisters_witness :
  is_Some
    (funcs (serveSession pipeline peer false []
              [(inbound, [mkRead (Err timeout) []])]).1.1.1 !! "A"%string).
Proof.
  apply serveSession_never_unregisters. exists (StreamID 10). reflexivity.
Defined.

Lemma handleSession_crash_is_a_parse_panic_witness :
  exists r, r ∈ [mkRead (Ok [0xBD]) []] /\
            ReadFrame r = Panic (PanicError truncated).
Proof.
  apply (handleSession_crash_is_a_parse_panic pipeline inbound peer).
  reflexivity.
Defined.

(** A Handshake of a client type the server does not know. *)
Lemma handleHandShakeFrame_only_stream_function_witness :
  let hello := {| Name := "X"; ClientType := 0x00 |} in
  handleHandShakeFrame pipeline inbound peer hello = pipeline /\
  dispatch pipeline inbound peer [] (FHandshake hello) = inl (pipeline, []).
Proof.
  cbv zeta. apply handleHandShakeFrame_only_stream_function. discriminate.
Defined.

Lemma handleDataFrame_successor_of_a_match_witness :
  let scan := [(0, "A"%string); (1, "B"%string); (2, "A"%string); (3, "C"%string)] in
  let f := frame_from "A" in
  exists i,
    funcBuckets twice !! i = Some (Issuer f) /\
    nextBucket scan (Issuer f) = GoInt.succ i /\
    (GoInt.succ i <> 0 ->
     (handleDataFrame twice scan inbound peer f).2 =
       forward_to_stage twice (GoInt.succ i) f).
Proof.
  cbv zeta. apply handleDataFrame_successor_of_a_match.
  - unfold range_order. compute_done.
  - exists 0. reflexivity.
Defined.

Lemma serveSession_runs_deferred_closes_witness :
  let r := serveSession pipeline peer false []
             [(inbound, [mkRead (Err timeout) []])] in
  exists evs, r.1.1.2 = evs ++ map StreamClose (rev r.1.2 ++ []).
Proof.
  cbv zeta. apply serveSession_runs_deferred_closes. discriminate.
Defined.

Lemma ListenAndServe_returns_first_failure_witness :
  exists err,
    Some timeout = Some err /\
    ((@None error = Some err /\
      set_state NewServer "connected" = NewServer /\ [SessionID 1] = []) \/
     (@None error = None /\
      set_state NewServer "connected" = set_state NewServer "connected" /\
      exists post,
        [Ok (SessionID 1); Err timeout; Ok (SessionID 2)] =
          (Ok <$> [SessionID 1]) ++ Err err :: post)).
Proof.
  apply (ListenAndServe_returns_first_failure "connected" NewServer).
  reflexivity.
Defined.

Lemma pipeline_routes_by_position_witness :
  let wfs := [mkWorkflow 0 "A"; mkWorkflow 1 "B"] in
  let s := (AddWorkflow NewServer wfs).1 in
  (handleDataFrame s [(1, "B"%string); (0, "A"%string)] inbound peer
     (frame_from "A")).2 =
    forward_to_stage s (Seq (mkWorkflow 0 "A") + 1) (frame_from "A").
Proof.
  cbv zeta.
  apply (pipeline_routes_by_position [mkWorkflow 0 "A"; mkWorkflow 1 "B"]).
  - compute_done.
  - compute_done.
  - left.
  - reflexivity.
  - compute_done.
  - unfold range_order. compute_done.
Defined.

(** Function [B] reconnects on stream 30 and gets the frame of [A]. *)
Lemma registered_function_receives_witness :
  (handleDataFrame
     (handleHandShakeFrame pipeline (StreamID 30) peer
        {| Name := "B"; ClientType := 0x5D |})
     [(1, "B"%string); (0, "A"%string)] inbound peer (frame_from "A")).2 =
    [StreamWrite (StreamID 30) (Encode (FData (frame_from "A")))].
Proof.
  apply (registered_function_receives pipeline (StreamID 30) peer peer
           {| Name := "B"; ClientType := 0x5D |} _ inbound (frame_from "A") 1).
  - reflexivity.
  - reflexivity.
  - discriminate.
  - reflexivity.
  - discriminate.
Defined.

(** Two Pings: no reply, nothing changed. *)
Lemma handleSession_quiet_frames_witness :
  handleSession pipeline inbound peer
    [mkRead (Ok [0xBC]) []; mkRead (Ok [0xBC]) []] = (pipeline, [], Blocked).
Proof.
  apply handleSession_quiet_frames.
  repeat constructor; exists (FPing mkPingFrame);
    (split; [reflexivity|split; discriminate]).
Defined.

Lemma serial_increments_count_witness :
  exists m,
    CounterRace.run (CounterRace.start NewServer 3) (CounterRace.serial 3) =
      Some m /\
    CounterRace.processed m = 3%nat /\
    StatsCounter (CounterRace.server m) = StatsCounter NewServer + Z.of_nat 3.
Proof.
  apply CounterRaceFacts.serial_increments_count; compute_done.
Defined.

End MoreRuns.

(** ** Events of the session loop, and the order of the visit *)

Section EventFacts.
Context `{FramePkg} `{ConnTypes}.

(** All that [handleSession] does to the outside: it writes the encoding of
    a Data frame one of the reads delivered, and, for a read that failed
    with an error other than [net.ErrClosed], closes its own stream and
    closes the session with code [0xCC] and that error. It closes no other
    stream and writes nothing else. *)
Theorem handleSession_events (s : Server) (st : Stream) (session : Session)
    (reads : list Read) (e : event) :
  e ∈ (handleSession s st session reads).1.2 ->
  (exists r d target,
     r ∈ reads /\ ReadFrame r = Return (FData d) /\
     e = StreamWrite target (Encode (FData d))) \/
  (exists r err,
     r ∈ reads /\ ReadFrame r = Fail err /\
     errors_Is_ErrClosed err = false /\
     (e = StreamClose st \/ e = SessionCloseWithError session 0xCC err)).
Proof.
  revert s. induction reads as [|r reads IH]; intros s Hin.
  - cbn in Hin. apply elem_of_nil in Hin. destruct Hin.
  - cbn [handleSession] in Hin.
    destruct (ReadFrame r) as [f|err|p] eqn:Hr.
    + destruct (dispatch_returns s st session (scan r) f)
        as (s1 & evs & Hd & Hevs).
      rewrite Hd in Hin.
      destruct (handleSession s1 st session reads) as [[s2 evs2] ex] eqn:E.
      cbn [fst snd] in Hin. apply elem_of_app in Hin as [Hin|Hin].
      * destruct (Hevs _ Hin) as (d & target & -> & ->).
        left. exists r, d, target. split; [left|]. split; [exact Hr|reflexivity].
      * destruct (IH s1) as [(r' & d & target & Hr' & Hd' & ->)
                            |(r' & err & Hr' & He & Hb & Hev)].
        { rewrite E. exact Hin. }
        { left. exists r', d, target. split; [right; exact Hr'|]. auto. }
        { right. exists r', err. split; [right; exact Hr'|]. auto. }
    + destruct (errors_Is_ErrClosed err) eqn:Hb; cbn [fst snd] in Hin.
      * apply elem_of_nil in Hin. destruct Hin.
      * right. exists r, err. split; [left|]. split; [exact Hr|].
        split; [exact Hb|].
        apply elem_of_cons in Hin as [->|Hin]; [left; reflexivity|].
        apply list_elem_of_singleton in Hin. right. exact Hin.
    + cbn in Hin. apply elem_of_nil in Hin. destruct Hin.
Qed.

End EventFacts.

Section VisitFacts.

(** When the issuer's token stands at several stages, the one the visit
    meets last decides: if after the entry for stage [i] the visit meets no
    other entry with the issuer's token, the loop ends with [j = i + 1],
    whatever it met before. *)
Theorem range_last_match_decides (before after : list (Z * string))
    (i : Z) (currentSfn : string) :
  Forall (fun e => e.2 <> currentSfn) after ->
  nextBucket (before ++ (i, currentSfn) :: after) currentSfn = GoInt.succ i.
Proof.
  intros Hafter. rewrite nextBucket_last_match, filter_app, filter_cons.
  rewrite decide_True by reflexivity.
  assert (Hnil : filter (fun e : Z * string => e.2 = currentSfn) after = []).
  { induction Hafter as [|e after He _ IH]; [reflexivity|].
    rewrite filter_cons, decide_False by exact He. exact IH. }
  rewrite Hnil, last_snoc. reflexivity.
Qed.

End VisitFacts.

Section EventRuns.
Import Sample.

Lemma handleSession_events_witness :
  let reads := [mkRead (Ok [0xBC]) []; mkRead (Err timeout) []] in
  (exists r d target,
     r ∈ reads /\ ReadFrame r = Return (FData d) /\
     StreamClose inbound = StreamWrite target (Encode (FData d))) \/
  (exists r err,
     r ∈ reads /\ ReadFrame r = Fail err /\
     errors_Is_ErrClosed err = false /\
     (StreamClose inbound = StreamClose inbound \/
      StreamClose inbound = SessionCloseWithError peer 0xCC err)).
Proof.
  cbv zeta. apply (handleSession_events pipeline inbound peer). left.
Defined.

(** Stage 2 is met after stage 0: the frame of [A] is for stage 3. *)
Lemma range_last_match_decides_witness :
  nextBucket
    ([(0, "A"%string); (1, "B"%string)] ++ (2, "A"%string) :: [(3, "C"%string)])
    "A" = GoInt.succ 2.
Proof.
  apply range_last_match_decides. repeat constructor. discriminate.
Defined.

End EventRuns.
